(** * PyQt-ANPR: the camera acquisition and frame-delivery pipeline

    A shallow embedding of [camera_thread.py] (class [CameraThread]) and of
    the parts of [ANPR_GUI_Complete.py] that drive it (class [ANPRProcessor]:
    [start_stream], [stop_stream], [generate_random_plate]), followed by
    the slots of class [ANPRMainWindow] that work on the window's own state
    and by the script [test_opencv_camera.py].

    - Everything the program does to the outside world (calls into cv2 and
      signal emissions) is recorded, in order, in a [trace].  What cv2
      answers (does a capture open, does a property stick, what does a read
      yield) is not decided by the program: it is an input of the model.
    - Code that runs on one thread with no other thread able to see it is a
      plain function on the state ([start_streaming], [get_available_cameras],
      [generate_random_plate]).
    - The acquisition loop [run] executes on its own [QThread] and races
      with [stop_streaming] on the GUI thread.  Both are embedded as step
      functions, one source statement per step, and a schedule (a list of
      [tick]s) picks which thread moves next and what cv2 answers.
    - A signal counts as delivered where it is emitted; [QThread.wait]
      blocks until [run] has returned; exceptions raised inside cv2 or Qt
      are outside the model.
    - A frame is an array of 3 or of 4 channels, the layouts the colour
      conversion of [run] accepts. *)

From Stdlib Require Import String Ascii DecimalString DecimalPos DecimalZ.
From Stdlib Require Import List Sorted Bool Arith ZArith Lia.
Import ListNotations.

(** ** Data model *)

(** [self.source]: an [int] device index or a [str] stream address. *)
Inductive source_identifier :=
| Device (index : Z)
| Stream (address : string).

(** How an f-string renders [self.source]. *)
Definition str (s : source_identifier) : string :=
  match s with
  | Device i => NilZero.string_of_int (Z.to_int i)
  | Stream a => a
  end.

(** The channel layouts of a decoded frame: [read()] hands out BGR frames,
    3 channels, or BGRA frames, 4 channels, when the backend keeps alpha.
    These are the layouts [cv2.cvtColor(_, cv2.COLOR_BGR2RGB)] takes. *)
Inductive channels := BGR | BGRA.

Definition channel_count (ch : channels) : nat :=
  match ch with BGR => 3 | BGRA => 4 end.

(** A decoded frame: a numpy array of 8-bit values, of shape (h, w, ch),
    and its flat data, row by row and pixel by pixel. *)
Record frame := {
  shape_h : nat;
  shape_w : nat;
  shape_ch : channels;
  data : list N
}.

Record QImage := {
  img_bytes : list N;
  img_w : nat;
  img_h : nat;
  bytes_per_line : nat
}.

(** [COLOR_BGR2RGB] on the flat data of a BGR array: each pixel's first
    and third value change places. *)
Fixpoint bgr2rgb (d : list N) : list N :=
  match d with
  | b :: g :: r :: rest => r :: g :: b :: bgr2rgb rest
  | _ => []
  end.

(** [COLOR_BGR2RGB] on the flat data of a BGRA array: the same, and the
    fourth value of each pixel is dropped. *)
Fixpoint bgra2rgb (d : list N) : list N :=
  match d with
  | b :: g :: r :: _ :: rest => r :: g :: b :: bgra2rgb rest
  | _ => []
  end.

(** [cv2.cvtColor(frame, cv2.COLOR_BGR2RGB)]: an array of the same height
    and width, with 3 channels whatever the input had. *)
Definition cvtColor_BGR2RGB (f : frame) : frame :=
  {| shape_h := shape_h f;
     shape_w := shape_w f;
     shape_ch := BGR;
     data := match shape_ch f with
             | BGR => bgr2rgb (data f)
             | BGRA => bgra2rgb (data f)
             end |}.

(** camera_thread.py lines 64-68: [h], [w] and [ch] are read off
    [rgb_frame], the converted array. *)
Definition qt_image (f : frame) : QImage :=
  let rgb_frame := cvtColor_BGR2RGB f in
  let h := shape_h rgb_frame in
  let w := shape_w rgb_frame in
  let ch := channel_count (shape_ch rgb_frame) in
  let bytes_per_line := ch * w in
  {| img_bytes := data rgb_frame;
     img_w := w;
     img_h := h;
     bytes_per_line := bytes_per_line |}.

(** A [cv2.VideoCapture] object, named by the order of its construction. *)
Definition handle := nat.

Inductive cap_prop := CAP_PROP_FRAME_WIDTH | CAP_PROP_FRAME_HEIGHT | CAP_PROP_FPS.

(** The four places of the program that call [release()]. *)
Inductive release_site :=
| AtStart      (* camera_thread.py line 31 *)
| AtStop       (* camera_thread.py line 50 *)
| AtLoopExit   (* camera_thread.py line 72 *)
| AtProbe.     (* camera_thread.py line 82 *)

Inductive event :=
| VideoCapture (h : handle) (src : source_identifier) (opened : bool)
| CapSet (h : handle) (p : cap_prop) (v : Z) (accepted : bool)
| CapRead (h : handle) (r : option frame)
| CapRelease (h : handle) (site : release_site)
| ThreadStart
| Emit_frame_ready_raw (f : frame)
| Emit_frame_ready (q : QImage)
| Emit_error_occurred (msg : string).

Definition trace := list event.

(** ** Reading a trace *)

Definition is_capture (e : event) : bool :=
  match e with VideoCapture _ _ _ => true | _ => false end.

(** The name the next [cv2.VideoCapture(...)] object gets. *)
Definition next_handle (t : trace) : handle := length (filter is_capture t).

Definition track (opn : list handle) (e : event) : list handle :=
  match e with
  | VideoCapture h _ true => opn ++ [h]
  | CapRelease h _ => filter (fun h' => negb (h' =? h)) opn
  | _ => opn
  end.

(** The captures that are open once the trace has happened. *)
Definition open_handles (t : trace) : list handle := fold_left track t [].

Definition peak_step (st : list handle * nat) (e : event) : list handle * nat :=
  let opn := track (fst st) e in (opn, Nat.max (snd st) (length opn)).

(** The largest number of captures that were open at the same instant. *)
Definition peak_open (t : trace) : nat := snd (fold_left peak_step t ([], 0)).

(** Where [release()] was called on [h], call by call. *)
Definition release_sites (h : handle) (t : trace) : list release_site :=
  flat_map (fun e => match e with
                     | CapRelease h' s => if h' =? h then [s] else []
                     | _ => []
                     end) t.

(** Did the capture [h] open when it was constructed? *)
Definition opened_ok (h : handle) (t : trace) : bool :=
  existsb (fun e => match e with
                    | VideoCapture h' _ true => h' =? h
                    | _ => false
                    end) t.

Definition is_signal (e : event) : bool :=
  match e with
  | Emit_frame_ready_raw _ | Emit_frame_ready _ | Emit_error_occurred _ => true
  | _ => false
  end.

(** Everything the thread emitted, in emission order. *)
Definition signals (t : trace) : trace := filter is_signal t.

(** What a slot connected to [frame_ready_raw] receives. *)
Definition frame_notifications (t : trace) : list frame :=
  flat_map (fun e => match e with Emit_frame_ready_raw f => [f] | _ => [] end) t.

(** What a slot connected to [error_occurred] receives. *)
Definition error_notifications (t : trace) : list string :=
  flat_map (fun e => match e with Emit_error_occurred m => [m] | _ => [] end) t.

(** What [read()] answered, in call order. *)
Definition reads (t : trace) : list (option frame) :=
  flat_map (fun e => match e with CapRead _ r => [r] | _ => [] end) t.

Definition failed_opens (t : trace) : list source_identifier :=
  flat_map (fun e => match e with VideoCapture _ s false => [s] | _ => [] end) t.

Definition property_hints (t : trace) : list (cap_prop * Z) :=
  flat_map (fun e => match e with CapSet _ p v _ => [(p, v)] | _ => [] end) t.

(** The sources a capture was constructed for, in construction order. *)
Definition captured_sources (t : trace) : list source_identifier :=
  flat_map (fun e => match e with VideoCapture _ s _ => [s] | _ => [] end) t.

(** Is [e] allowed once [n] captures have been constructed?  A new capture
    gets the name [n]; methods are called on constructed captures only. *)
Definition allows (n : nat) (e : event) : bool :=
  match e with
  | VideoCapture h _ _ => h =? n
  | CapSet h _ _ _ | CapRead h _ | CapRelease h _ => h <? n
  | _ => true
  end.

(** A trace names its captures by construction order, [n] onwards, and
    calls no method on a capture that is not constructed yet. *)
Fixpoint well_named_from (n : nat) (t : trace) : bool :=
  match t with
  | [] => true
  | e :: t' => allows n e && well_named_from (if is_capture e then S n else n) t'
  end.

Definition well_named (t : trace) : Prop := well_named_from 0 t = true.

Definition thread_starts (t : trace) : nat :=
  length (filter (fun e => match e with ThreadStart => true | _ => false end) t).

(** ** class CameraThread *)

(** Where the worker thread stands inside [run] (camera_thread.py 53-73). *)
Inductive wpc :=
| W_head                       (* 55: while self.running and self.cap is not None *)
| W_read                       (* 56: ret, frame = self.cap.read() *)
| W_emit_error                 (* 59: self.error_occurred.emit(...); 60: break *)
| W_emit_raw (f : frame)       (* 62: self.frame_ready_raw.emit(frame) *)
| W_emit_qimage (f : frame)    (* 64-69: self.frame_ready.emit(qt_image) *)
| W_exit_check                 (* 71: if self.cap is not None *)
| W_release                    (* 72: self.cap.release() *)
| W_clear.                     (* 73: self.cap = None *)

(** The [QThread] underneath: [Crashed] is a [run] that died on an
    exception ([self.cap] being [None] where a method is called on it). *)
Inductive qthread :=
| NotStarted
| Active (at_ : wpc)
| Finished
| Crashed.

Record CameraThread := {
  running : bool;
  cap : option handle;
  source : source_identifier;
  thread : qthread
}.

(** [__init__] (lines 15-22). *)
Definition CameraThread_init : CameraThread :=
  {| running := false; cap := None; source := Device 0; thread := NotStarted |}.

Definition with_running (b : bool) (self : CameraThread) : CameraThread :=
  {| running := b; cap := cap self; source := source self; thread := thread self |}.

Definition with_cap (c : option handle) (self : CameraThread) : CameraThread :=
  {| running := running self; cap := c; source := source self; thread := thread self |}.

Definition with_thread (q : qthread) (self : CameraThread) : CameraThread :=
  {| running := running self; cap := cap self; source := source self; thread := q |}.

(** [set_source] (lines 24-26). *)
Definition set_source (src : source_identifier) (self : CameraThread) : CameraThread :=
  {| running := running self; cap := cap self; source := src; thread := thread self |}.

Definition is_not_None {A : Type} (o : option A) : bool :=
  match o with Some _ => true | None => false end.

(** [QThread.isRunning()]. *)
Definition isRunning (self : CameraThread) : bool :=
  match thread self with Active _ => true | _ => false end.

(** [QThread.start()]: launches [run] unless the thread is already running. *)
Definition start (self : CameraThread) (t : trace) : CameraThread * trace :=
  if isRunning self then (self, t)
  else (with_thread (Active W_head) self, t ++ [ThreadStart]).

Definition open_error_message (src : source_identifier) : string :=
  ("Failed to open camera source: " ++ str src)%string.

Definition read_error_message : string := "Failed to read frame from camera.".

(** What cv2 answers during one [start_streaming]: whether the capture
    opened, and what each [cap.set] returned. *)
Record cv_answers := {
  opens : bool;
  accepts_width : bool;
  accepts_height : bool;
  accepts_fps : bool
}.

(** [start_streaming] (lines 28-43). *)
Definition start_streaming (a : cv_answers) (self : CameraThread) (t : trace)
  : bool * CameraThread * trace :=
  (* 30-31 *)
  let t := match cap self with
           | Some old => t ++ [CapRelease old AtStart]
           | None => t
           end in
  (* 32 *)
  let h := next_handle t in
  let t := t ++ [VideoCapture h (source self) (opens a)] in
  let self := with_cap (Some h) self in
  (* 33-36 *)
  if negb (opens a) then
    (false, self, t ++ [Emit_error_occurred (open_error_message (source self))])
  else
    (* 38-40 *)
    let t := t ++ [CapSet h CAP_PROP_FRAME_WIDTH 1280 (accepts_width a);
                   CapSet h CAP_PROP_FRAME_HEIGHT 720 (accepts_height a);
                   CapSet h CAP_PROP_FPS 30 (accepts_fps a)] in
    (* 41 *)
    let self := with_running true self in
    (* 42-43 *)
    let '(self, t) := start self t in
    (true, self, t).

(** One statement of [run] on the worker thread; [rd] is what [read()]
    yields should this statement be the read. *)
Definition worker_step (rd : option frame) (self : CameraThread) (t : trace)
  : CameraThread * trace :=
  match thread self with
  | Active W_head =>
      if running self && is_not_None (cap self)
      then (with_thread (Active W_read) self, t)
      else (with_thread (Active W_exit_check) self, t)
  | Active W_read =>
      match cap self with
      | Some h =>
          match rd with
          | Some f => (with_thread (Active (W_emit_raw f)) self, t ++ [CapRead h rd])
          | None => (with_thread (Active W_emit_error) self, t ++ [CapRead h rd])
          end
      | None => (with_thread Crashed self, t)
      end
  | Active W_emit_error =>
      (with_thread (Active W_exit_check) self,
       t ++ [Emit_error_occurred read_error_message])
  | Active (W_emit_raw f) =>
      (with_thread (Active (W_emit_qimage f)) self, t ++ [Emit_frame_ready_raw f])
  | Active (W_emit_qimage f) =>
      (with_thread (Active W_head) self, t ++ [Emit_frame_ready (qt_image f)])
  | Active W_exit_check =>
      match cap self with
      | Some _ => (with_thread (Active W_release) self, t)
      | None => (with_thread Finished self, t)
      end
  | Active W_release =>
      match cap self with
      | Some h => (with_thread (Active W_clear) self, t ++ [CapRelease h AtLoopExit])
      | None => (with_thread Crashed self, t)
      end
  | Active W_clear => (with_thread Finished (with_cap None self), t)
  | NotStarted | Finished | Crashed => (self, t)
  end.

(** [get_available_cameras] (lines 75-83): one turn of the loop body. *)
Definition probe (isOpened : Z -> bool) (st : list Z * trace) (i : Z) : list Z * trace :=
  let '(available_cameras, t) := st in
  let h := next_handle t in
  let t := t ++ [VideoCapture h (Device i) (isOpened i)] in
  if isOpened i then (available_cameras ++ [i], t ++ [CapRelease h AtProbe])
  else (available_cameras, t).

(** Python's [range(n)]. *)
Definition range (n : nat) : list Z := map Z.of_nat (seq 0 n).

Definition get_available_cameras (isOpened : Z -> bool) (t : trace) : list Z * trace :=
  fold_left (probe isOpened) (range 10) ([], t).

(** ** The session's lifecycle, in the words of the specification *)

Inductive lifecycle := Idle | Running | Stopping | Failed.

(** The loop is live while the thread runs; a thread that ended with the
    flag still set ended on a read failure. *)
Definition session_state (self : CameraThread) : lifecycle :=
  match thread self with
  | Active _ => if running self then Running else Stopping
  | NotStarted => Idle
  | Finished | Crashed => if running self then Failed else Idle
  end.

(** ** class ANPRProcessor and the two threads *)

(** Who called [stop_streaming], hence where it returns to. *)
Inductive caller :=
| From_start_stream (src : source_identifier)   (* ANPR_GUI_Complete.py line 208 *)
| From_stop_stream                              (* ANPR_GUI_Complete.py line 223 *)
| Direct.                                       (* a call on the CameraThread itself *)

(** Where the GUI thread stands. *)
Inductive mpc :=
| M_idle
| M_start_check (src : source_identifier)   (* start_stream, line 207 *)
| M_start_new (src : source_identifier)     (* start_stream, lines 210-215 *)
| M_stop_check                              (* stop_stream, line 222 *)
| M_sp_set_flag (k : caller)                (* stop_streaming, line 47 *)
| M_sp_wait (k : caller)                    (* stop_streaming, line 48 *)
| M_sp_check_cap (k : caller)               (* stop_streaming, line 49 *)
| M_sp_release (k : caller)                 (* stop_streaming, line 50 *)
| M_sp_clear (k : caller)                   (* stop_streaming, line 51 *)
| M_sp_returned (k : caller).               (* stop_streaming is back in its caller *)

Record config := {
  camera_thread : option CameraThread;   (* ANPRProcessor.camera_thread *)
  main : mpc;
  hist : trace
}.

Definition init : config :=
  {| camera_thread := None; main := M_idle; hist := [] |}.

Definition goto (pc : mpc) (c : config) : config :=
  {| camera_thread := camera_thread c; main := pc; hist := hist c |}.

Definition update_thread (self : CameraThread) (pc : mpc) (c : config) : config :=
  {| camera_thread := Some self; main := pc; hist := hist c |}.

(** One statement of the GUI thread. *)
Definition main_step (a : cv_answers) (c : config) : config :=
  match main c with
  | M_idle => c
  | M_start_check src =>
      match camera_thread c with
      | Some self => if isRunning self then goto (M_sp_set_flag (From_start_stream src)) c
                     else goto (M_start_new src) c
      | None => goto (M_start_new src) c
      end
  | M_start_new src =>
      let self := set_source src CameraThread_init in
      let '(_, self, t) := start_streaming a self (hist c) in
      {| camera_thread := Some self; main := M_idle; hist := t |}
  | M_stop_check =>
      match camera_thread c with
      | Some self => if isRunning self then goto (M_sp_set_flag From_stop_stream) c
                     else goto M_idle c
      | None => goto M_idle c
      end
  | M_sp_set_flag k =>
      match camera_thread c with
      | Some self => update_thread (with_running false self) (M_sp_wait k) c
      | None => goto M_idle c
      end
  | M_sp_wait k =>
      match camera_thread c with
      | Some self => if isRunning self then c else goto (M_sp_check_cap k) c
      | None => goto M_idle c
      end
  | M_sp_check_cap k =>
      match camera_thread c with
      | Some self => match cap self with
                     | Some _ => goto (M_sp_release k) c
                     | None => goto (M_sp_returned k) c
                     end
      | None => goto M_idle c
      end
  | M_sp_release k =>
      match camera_thread c with
      | Some self => match cap self with
                     | Some h => {| camera_thread := Some self;
                                    main := M_sp_clear k;
                                    hist := hist c ++ [CapRelease h AtStop] |}
                     | None => goto M_idle c
                     end
      | None => goto M_idle c
      end
  | M_sp_clear k =>
      match camera_thread c with
      | Some self => update_thread (with_cap None self) (M_sp_returned k) c
      | None => goto M_idle c
      end
  | M_sp_returned (From_start_stream src) =>
      {| camera_thread := None; main := M_start_new src; hist := hist c |}
  | M_sp_returned From_stop_stream =>
      {| camera_thread := None; main := M_idle; hist := hist c |}
  | M_sp_returned Direct => goto M_idle c
  end.

(** What the GUI asks of the pipeline. *)
Inductive api_call :=
| Call_start_stream (src : source_identifier)
| Call_stop_stream
| Call_stop_streaming.

Definition enter (call : api_call) (c : config) : config :=
  match main c with
  | M_idle =>
      match call with
      | Call_start_stream src => goto (M_start_check src) c
      | Call_stop_stream => goto M_stop_check c
      | Call_stop_streaming =>
          match camera_thread c with
          | Some _ => goto (M_sp_set_flag Direct) c
          | None => c
          end
      end
  | _ => c
  end.

Inductive tick :=
| Call (call : api_call)       (* the GUI thread, idle, enters a method *)
| Main (a : cv_answers)        (* the GUI thread executes its next statement *)
| Work (rd : option frame).    (* the worker thread executes its next statement *)

Definition step (c : config) (k : tick) : config :=
  match k with
  | Call call => enter call c
  | Main a => main_step a c
  | Work rd =>
      match camera_thread c with
      | Some self =>
          let '(self, t) := worker_step rd self (hist c) in
          {| camera_thread := Some self; main := main c; hist := t |}
      | None => c
      end
  end.

Definition exec (ks : list tick) (c : config) : config := fold_left step ks c.

(** ** [ANPRProcessor.generate_random_plate] *)

(** numpy's global generator, as the stream of raw draws still to come. *)
Definition rng := nat -> nat.

(** [np.random.choice(a, size)]. *)
Definition choice (a : list ascii) (size : nat) (g : rng) : list ascii * rng :=
  (map (fun k => nth (g k mod length a) a "000"%char) (seq 0 size),
   fun k => g (size + k)).

Definition plate_letters : list ascii := list_ascii_of_string "ABCDEFGHJKLMNPQRSTUVWXYZ".
Definition plate_digits : list ascii := list_ascii_of_string "0123456789".

(** [generate_random_plate] (ANPR_GUI_Complete.py lines 242-255). *)
Definition generate_random_plate (country_template : string) (g : rng) : string * rng :=
  if String.eqb country_template "EU" then
    let '(letters, g) := choice plate_letters 3 g in
    let '(numbers, g) := choice plate_digits 3 g in
    ((string_of_list_ascii letters ++ "-" ++ string_of_list_ascii numbers)%string, g)
  else if String.eqb country_template "US" then
    let '(letters, g) := choice plate_letters 3 g in
    let '(numbers, g) := choice plate_digits 4 g in
    ((string_of_list_ascii numbers ++ string_of_list_ascii letters)%string, g)
  else
    let '(letters, g) := choice plate_letters 2 g in
    let '(numbers, g) := choice plate_digits 4 g in
    ((string_of_list_ascii letters ++ string_of_list_ascii numbers)%string, g).

(** ** Invariants used in the proofs *)

(** [t'] continues [t] by [n] probes: [n] more captures were constructed,
    each one that opened was released once, by the probe, and the captures
    of [t] were left alone. *)
Definition probes_closed (n : nat) (t t' : trace) : Prop :=
  well_named t' /\
  open_handles t' = open_handles t /\
  next_handle t' = next_handle t + n /\
  (forall h, h < next_handle t ->
             release_sites h t' = release_sites h t /\
             opened_ok h t' = opened_ok h t) /\
  (forall h, next_handle t <= h -> h < next_handle t' ->
             release_sites h t' = if opened_ok h t' then [AtProbe] else []) /\
  peak_open t' <= Nat.max (peak_open t) (S (length (open_handles t))).

(** The signals an answer of cv2 calls for while a session is driven: two
    per frame read, one per failed read, one per capture of
    [start_streaming] that did not open. *)
Definition owed (e : event) : trace :=
  match e with
  | CapRead _ (Some f) => [Emit_frame_ready_raw f; Emit_frame_ready (qt_image f)]
  | CapRead _ None => [Emit_error_occurred read_error_message]
  | VideoCapture _ src false => [Emit_error_occurred (open_error_message src)]
  | _ => []
  end.

Definition expected_signals (t : trace) : trace := flat_map owed t.

(** What the worker has still to emit for the read it is working on. *)
Definition pending (q : qthread) : trace :=
  match q with
  | Active W_emit_error => [Emit_error_occurred read_error_message]
  | Active (W_emit_raw f) => [Emit_frame_ready_raw f; Emit_frame_ready (qt_image f)]
  | Active (W_emit_qimage f) => [Emit_frame_ready (qt_image f)]
  | _ => []
  end.

Definition pending_of (c : config) : trace :=
  match camera_thread c with
  | Some self => pending (thread self)
  | None => []
  end.

(** Was every capture constructed at an instant where none was open? *)
Definition closed_step (st : list handle * bool) (e : event) : list handle * bool :=
  (track (fst st) e,
   snd st && (if is_capture e then
                match fst st with [] => true | _ :: _ => false end
              else true)).

Definition captures_when_closed (t : trace) : bool :=
  snd (fold_left closed_step t ([], true)).

Definition is_W_clear (w : wpc) : bool :=
  match w with W_clear => true | _ => false end.

Definition post_wait (pc : mpc) : bool :=
  match pc with
  | M_sp_check_cap _ | M_sp_release _ | M_sp_clear _ | M_sp_returned _ => true
  | _ => false
  end.

Definition flag_cleared (pc : mpc) : bool :=
  match pc with M_sp_wait _ => true | _ => post_wait pc end.

Definition is_returned (pc : mpc) : bool :=
  match pc with M_sp_returned _ => true | _ => false end.

Definition is_clear (pc : mpc) : bool :=
  match pc with M_sp_clear _ => true | _ => false end.

Definition is_start_new (pc : mpc) : bool :=
  match pc with M_start_new _ => true | _ => false end.

(** A capture nobody holds any more: released once by the loop that read
    from it if it had opened; if it had not, untouched or released once by
    [stop_streaming]. *)
Definition settled (h : handle) (t : trace) : Prop :=
  if opened_ok h t then release_sites h t = [AtLoopExit]
  else release_sites h t = [] \/ release_sites h t = [AtStop].

(** How the fields of the thread object, the place of the GUI thread and
    the trace fit together. *)
Definition thread_ok (pc : mpc) (self : CameraThread) (t : trace) : Prop :=
  (flag_cleared pc = true -> running self = false) /\
  (is_returned pc = true -> cap self = None) /\
  match thread self with
  | Active w =>
      post_wait pc = false /\ is_start_new pc = false /\
      match cap self with
      | Some h => h < next_handle t /\ opened_ok h t = true /\
                  if is_W_clear w
                  then open_handles t = [] /\ release_sites h t = [AtLoopExit]
                  else open_handles t = [h] /\ release_sites h t = []
      | None => False
      end
  | Finished => cap self = None /\ open_handles t = []
  | NotStarted =>
      open_handles t = [] /\ running self = false /\
      match cap self with
      | None => True
      | Some h => h < next_handle t /\ opened_ok h t = false /\
                  release_sites h t = if is_clear pc then [AtStop] else []
      end
  | Crashed => False
  end.

Definition held_by (c : config) (h : handle) : Prop :=
  match camera_thread c with
  | Some self => cap self = Some h
  | None => False
  end.

Definition Inv (c : config) : Prop :=
  well_named (hist c) /\
  peak_open (hist c) <= 1 /\
  captures_when_closed (hist c) = true /\
  (forall h, h < next_handle (hist c) -> ~ held_by c h -> settled h (hist c)) /\
  match camera_thread c with
  | Some self => thread_ok (main c) self (hist c)
  | None => open_handles (hist c) = [] /\ is_returned (main c) = false
  end /\
  signals (hist c) ++ pending_of c = expected_signals (hist c).

(** The events that happened between two configurations. *)
Definition since (c0 c : config) : trace := skipn (length (hist c0)) (hist c).

(** A schedule that lets the loop read the frames [fs] and then a failure,
    and run to its end. *)
Definition worker_schedule (fs : list frame) : list tick :=
  flat_map (fun f => repeat (Work (Some f)) 4) fs ++ repeat (Work None) 6.

(** [stop_streaming] called on the thread object, run to its return. *)
Definition stop_call (a : cv_answers) (c : config) : config :=
  exec (Call Call_stop_streaming :: repeat (Main a) 6) c.

(** Is an acquisition loop executing? *)
Definition loop_running (c : config) : bool :=
  match camera_thread c with
  | Some self => isRunning self
  | None => false
  end.

(** The signals one answer of [read()] calls for. *)
Definition owed_read (r : option frame) : trace :=
  match r with
  | Some f => [Emit_frame_ready_raw f; Emit_frame_ready (qt_image f)]
  | None => [Emit_error_occurred read_error_message]
  end.

(** How many statements [run] has left at most once the flag is cleared. *)
Definition remaining (q : qthread) : nat :=
  match q with
  | Active W_read => 7
  | Active (W_emit_raw _) => 6
  | Active (W_emit_qimage _) => 5
  | Active W_head => 4
  | Active W_emit_error => 4
  | Active W_exit_check => 3
  | Active W_release => 2
  | Active W_clear => 1
  | NotStarted | Finished | Crashed => 0
  end.

(** A session [stop_streaming] is done with: no loop, flag cleared, no
    capture held or open, and nothing more to come from the worker however
    often it is scheduled. *)
Definition quiescent (c : config) : Prop :=
  exists self,
    camera_thread c = Some self /\
    isRunning self = false /\
    running self = false /\
    cap self = None /\
    session_state self = Idle /\
    open_handles (hist c) = [] /\
    forall rds : list (option frame), exec (map Work rds) c = c.

(** How many statements of [run] a schedule executes. *)
Definition works (ks : list tick) : nat :=
  length (filter (fun k => match k with Work _ => true | _ => false end) ks).

(** Does every [read()] of the schedule fail? *)
Definition reads_fail (ks : list tick) : bool :=
  forallb (fun k => match k with Work (Some _) => false | _ => true end) ks.

(** How many statements [run] has left before line 72, at most, when its
    next [read()] fails. *)
Definition before_release (w : wpc) : nat :=
  match w with
  | W_emit_raw _ => 7
  | W_emit_qimage _ => 6
  | W_head => 5
  | W_read => 4
  | W_emit_error => 3
  | W_exit_check => 2
  | W_release => 1
  | W_clear => 0
  end.

(** ** More to read from a trace *)

(** Did [run] die on an exception? *)
Definition has_crashed (c : config) : bool :=
  match camera_thread c with
  | Some self => match thread self with Crashed => true | _ => false end
  | None => false
  end.

(** The frames [read()] handed out, in call order. *)
Definition frames_read (t : trace) : list frame :=
  flat_map (fun e => match e with CapRead _ (Some f) => [f] | _ => [] end) t.

(** What a slot connected to [frame_ready] receives. *)
Definition image_notifications (t : trace) : list QImage :=
  flat_map (fun e => match e with Emit_frame_ready q => [q] | _ => [] end) t.

(** The failures cv2 answered with, in order: the message each one calls for. *)
Definition failures (t : trace) : list string :=
  flat_map (fun e => match e with
                     | CapRead _ None => [read_error_message]
                     | VideoCapture _ src false => [open_error_message src]
                     | _ => []
                     end) t.

(** The capture a [set] or a [read] is called on. *)
Definition uses (e : event) : option handle :=
  match e with
  | CapSet h _ _ _ | CapRead h _ => Some h
  | _ => None
  end.

Definition open_use_step (st : list handle * bool) (e : event) : list handle * bool :=
  (track (fst st) e,
   snd st && match uses e with
             | Some h => existsb (Nat.eqb h) (fst st)
             | None => true
             end).

(** Was every [set] and every [read] called on a capture open at that instant? *)
Definition used_while_open (t : trace) : bool :=
  snd (fold_left open_use_step t ([], true)).

(** What [read()] answered on the capture [h], in call order. *)
Definition reads_of (h : handle) (t : trace) : list (option frame) :=
  flat_map (fun e => match e with
                     | CapRead h' r => if h' =? h then [r] else []
                     | _ => []
                     end) t.

Definition is_frame (r : option frame) : bool :=
  match r with Some _ => true | None => false end.

(** The places of [run] from which another [read()] can follow. *)
Definition reading (w : wpc) : bool :=
  match w with
  | W_head | W_read | W_emit_raw _ | W_emit_qimage _ => true
  | _ => false
  end.

Definition Reads (c : config) : Prop :=
  used_while_open (hist c) = true /\
  (forall h, forallb is_frame (removelast (reads_of h (hist c))) = true) /\
  match camera_thread c with
  | Some self =>
      match thread self, cap self with
      | Active w, Some h =>
          if reading w then forallb is_frame (reads_of h (hist c)) = true else True
      | _, _ => True
      end
  | None => True
  end.

(** ** class ANPRMainWindow: choosing the source *)

(** [s.split(sep)] for a separator of one character. *)
Fixpoint split (sep : ascii) (s : string) : list string :=
  match s with
  | EmptyString => [EmptyString]
  | String c s' =>
      if Ascii.eqb c sep then EmptyString :: split sep s'
      else match split sep s' with
           | w :: ws => String c w :: ws
           | [] => [String c EmptyString]
           end
  end.

(** A reading of decimal numerals that inverts [str] on the integers. *)
Definition decimal_int (s : string) : option Z :=
  option_map Z.of_int (NilZero.int_of_string s).

(** The label [scan_and_update_cameras] gives a device (line 610). *)
Definition camera_label (idx : Z) : string := ("Camera " ++ str (Device idx))%string.

(** [get_camera_source] (ANPR_GUI_Complete.py lines 494-501).  [int] is
    Python's [int()] on strings, [None] standing for its [ValueError];
    the result [None] is the exception propagating. *)
Definition get_camera_source (int : string -> option Z) (text url : string)
  : option source_identifier :=
  if prefix "Camera " text then
    match nth_error (split " " text) 1 with
    | Some s => option_map Device (int s)
    | None => None
    end
  else if (text =? "RTSP Stream")%string || (text =? "IP Camera")%string
       then Some (Stream url)
       else Some (Device 0).


(** A [QComboBox]: its items, and the index of the current one if any. *)
Record combo := { items : list string; currentIndex : option nat }.

Definition clear : combo := {| items := []; currentIndex := None |}.

(** [addItem]: the first item put into an empty box becomes current. *)
Definition addItem (text : string) (b : combo) : combo :=
  {| items := items b ++ [text];
     currentIndex := match currentIndex b with
                     | Some i => Some i
                     | None => Some 0
                     end |}.

Definition setCurrentIndex (i : nat) (b : combo) : combo :=
  {| items := items b;
     currentIndex := if i <? length (items b) then Some i else None |}.

Definition currentText (b : combo) : string :=
  match currentIndex b with
  | Some i => nth i (items b) EmptyString
  | None => EmptyString
  end.

(** [scan_and_update_cameras] (lines 604-619): the cameras found, the
    combo box, whether the start button is enabled, and the trace. *)
Definition scan_and_update_cameras (isOpened : Z -> bool) (t : trace)
  : list Z * combo * bool * trace :=
  let '(available_cameras, t) := get_available_cameras isOpened t in
  let b := clear in
  let b := fold_left (fun b idx => addItem (camera_label idx) b) available_cameras b in
  let b := addItem "RTSP Stream" b in
  let b := addItem "IP Camera" b in
  match available_cameras with
  | _ :: _ => (available_cameras, setCurrentIndex 0 b, true, t)
  | [] => (available_cameras, b, false, t)
  end.

(** ** class ANPRMainWindow: the vehicle list and the results table *)

(** An entry of [plate_list]: its text and whether it is hidden. *)
Record list_item := { item_text : string; hidden : bool }.

(** Python's [needle in hay] on strings. *)
Fixpoint contains (needle hay : string) : bool :=
  prefix needle hay ||
  match hay with
  | EmptyString => false
  | String _ rest => contains needle rest
  end.

(** [search_vehicle] (lines 593-602); [lower] is [str.lower]. *)
Definition search_vehicle (lower : string -> string) (search_input : string)
           (plate_list : list list_item) : list list_item :=
  let search_text := lower search_input in
  map (fun item =>
         {| item_text := item_text item;
            hidden := negb (contains search_text (lower (item_text item))) |})
      plate_list.

(** [str.lower] on the letters A to Z, other characters left alone. *)
Definition ascii_lower (s : string) : string :=
  string_of_list_ascii
    (map (fun c => let n := nat_of_ascii c in
                   if (65 <=? n) && (n <=? 90) then ascii_of_nat (n + 32) else c)
         (list_ascii_of_string s)).

(** A row of [results_table]: four cells, each with an item or without. *)
Record table_row := {
  cell0 : option string;
  cell1 : option string;
  cell2 : option string;
  cell3 : option string
}.

(** [dict.get(key, default)], the dict seen through its lookup. *)
Definition get (d : string -> option string) (key default : string) : string :=
  match d key with
  | Some v => v
  | None => default
  end.

(** The loop of [add_detection_result] (lines 542-546): does some entry
    of the list carry the plate? *)
Fixpoint monitored (plate_list : list list_item) (plate : string) : bool :=
  match plate_list with
  | [] => false
  | item :: rest =>
      if negb (plate =? EmptyString)%string && (item_text item =? plate)%string then true
      else monitored rest plate
  end.

(** [add_detection_result] (lines 532-546): the table and the status bar. *)
Definition add_detection_result (result : string -> option string)
           (results_table : list table_row) (plate_list : list list_item)
           (status : string) : list table_row * string :=
  let row := {| cell0 := Some (get result "timestamp" EmptyString);
                cell1 := Some (get result "vehicle_type" "Unknown");
                cell2 := Some (get result "plate" EmptyString);
                cell3 := Some (get result "color" "Unknown") |} in
  (results_table ++ [row],
   if monitored plate_list (get result "plate" EmptyString)
   then ("Monitored vehicle detected: " ++ get result "plate" EmptyString)%string
   else status).

(** The newline character. *)
Definition nl : string := String (ascii_of_nat 10) EmptyString.

Definition text_of (cell : option string) : string :=
  match cell with
  | Some s => s
  | None => EmptyString
  end.

(** The line [export_results] writes for a row (lines 556-562). *)
Definition csv_line (r : table_row) : string :=
  (text_of (cell0 r) ++ "," ++ text_of (cell1 r) ++ "," ++ text_of (cell2 r) ++ nl)%string.

(** [export_results] (lines 548-565): the strings written to the file, one
    per [write], and the status bar.  [filename] is what the dialog
    returned, [io_error] the exception [open] raised, if it did. *)
Definition export_results (filename : string) (io_error : option string)
           (results_table : list table_row) (status : string)
  : option (list string) * string :=
  if (filename =? EmptyString)%string then (None, status)
  else match io_error with
       | None => (Some (("Timestamp,Plate,Confidence" ++ nl)%string
                        :: map csv_line results_table),
                  ("Results exported to " ++ filename)%string)
       | Some e => (None, ("Export failed: " ++ e)%string)
       end.

(** ** class ANPRMainWindow: the start button *)

(** What [camera_display] shows: a text or a frame. *)
Inductive display := Label (text : string) | Pixmap.

(** The widgets and fields [toggle_stream] and [show_camera_error] write. *)
Record window := {
  is_streaming : bool;
  stream_button_checked : bool;
  stream_button_text : string;
  led_indicator : string;
  status_message : string;
  camera_display : display
}.

Definition led_red : string := "background-color: red; border-radius: 8px;".
Definition led_green : string := "background-color: green; border-radius: 8px;".

(** [toggle_stream(False)] (lines 481-492). *)
Definition toggle_stream_off (w : window) : window :=
  {| is_streaming := false;
     stream_button_checked := stream_button_checked w;
     stream_button_text := "Start Camera";
     led_indicator := led_red;
     status_message := "Camera stopped";
     camera_display := Label "No camera feed" |}.

(** [stream_button.setChecked(False)]: when this changes the button, Qt
    emits [toggled(False)], which runs [toggle_stream(False)]. *)
Definition setChecked_False (w : window) : window :=
  if stream_button_checked w then
    toggle_stream_off
      {| is_streaming := is_streaming w;
         stream_button_checked := false;
         stream_button_text := stream_button_text w;
         led_indicator := led_indicator w;
         status_message := status_message w;
         camera_display := camera_display w |}
  else w.

(** [show_camera_error] (lines 621-632), the slot on [error_occurred]. *)
Definition show_camera_error (error_msg : string) (w : window) : window :=
  let w := {| is_streaming := is_streaming w;
              stream_button_checked := stream_button_checked w;
              stream_button_text := stream_button_text w;
              led_indicator := led_indicator w;
              status_message := error_msg;
              camera_display := camera_display w |} in
  let w := setChecked_False w in
  {| is_streaming := false;
     stream_button_checked := stream_button_checked w;
     stream_button_text := "Start Camera";
     led_indicator := led_red;
     status_message := status_message w;
     camera_display := Label "No camera feed" |}.

(** How a call of [start_stream] went: the capture opened; it did not, so
    [error_occurred] was emitted during the call; or an exception was
    caught by its [except]. *)
Inductive start_outcome := Opened | NotOpened | Raised.

(** [ANPRProcessor.start_stream] as the window sees it (lines 203-218):
    its result, and the window after the slots that ran during the call.
    The result of [start_streaming] is not looked at. *)
Definition start_stream_seen (o : start_outcome) (source : source_identifier)
           (w : window) : bool * window :=
  match o with
  | Opened => (true, w)
  | NotOpened => (true, show_camera_error (open_error_message source) w)
  | Raised => (false, w)
  end.

(** [toggle_stream(True)] (lines 471-480). *)
Definition toggle_stream_on (o : start_outcome) (source : source_identifier)
           (w : window) : window :=
  let '(started, w) := start_stream_seen o source w in
  if started then
    {| is_streaming := true;
       stream_button_checked := stream_button_checked w;
       stream_button_text := "Stop Camera";
       led_indicator := led_green;
       status_message := "Camera started";
       camera_display := camera_display w |}
  else
    let w := setChecked_False w in
    {| is_streaming := is_streaming w;
       stream_button_checked := stream_button_checked w;
       stream_button_text := stream_button_text w;
       led_indicator := led_indicator w;
       status_message := "Failed to start camera";
       camera_display := camera_display w |}.

(** ** test_opencv_camera.py *)

Inductive script_event :=
| S_VideoCapture (opened : bool)
| S_print (msg : string)
| S_read (r : option frame)
| S_imshow (f : frame)
| S_waitKey (key : Z)
| S_release
| S_destroyAllWindows
| S_exit (code : Z).

(** The loop of the script (lines 13-21), fed with what each turn's
    [read()] and [waitKey(1)] answer; [None] when the answers run out
    with the loop still going. *)
Fixpoint camera_test_loop (answers : list (option frame * Z)) : option (list script_event) :=
  match answers with
  | [] => None
  | (None, _) :: _ =>
      Some [S_read None; S_print "Failed to read frame from camera."]
  | (Some f, key) :: rest =>
      if (Z.land key 255 =? 113)%Z
      then Some [S_read (Some f); S_imshow f; S_waitKey key]
      else option_map (app [S_read (Some f); S_imshow f; S_waitKey key])
                      (camera_test_loop rest)
  end.

(** The whole script. *)
Definition test_opencv_camera (opened : bool) (answers : list (option frame * Z))
  : option (list script_event) :=
  if negb opened then
    Some [S_VideoCapture false;
          S_print "Failed to open camera (index 0). Try another index or check camera permissions.";
          S_exit 1]
  else
    option_map (fun l => S_VideoCapture true :: S_print "Press 'q' to quit." :: l
                           ++ [S_release; S_destroyAllWindows])
               (camera_test_loop answers).

Definition frames_shown (l : list script_event) : list frame :=
  flat_map (fun e => match e with S_imshow f => [f] | _ => [] end) l.

Definition frames_grabbed (l : list script_event) : list frame :=
  flat_map (fun e => match e with S_read (Some f) => [f] | _ => [] end) l.

Definition releases_in (l : list script_event) : nat :=
  length (filter (fun e => match e with S_release => true | _ => false end) l).

(* ================================================================== *)
(** * Theorems *)

(** ** Traces grow at the end *)

Section TraceFacts.

Implicit Types (t s : trace) (e : event) (h : handle).

Lemma next_handle_app t s : next_handle (t ++ s) = next_handle t + next_handle s.
Proof. unfold next_handle. now rewrite filter_app, length_app. Qed.

Lemma open_handles_snoc t e : open_handles (t ++ [e]) = track (open_handles t) e.
Proof. unfold open_handles. now rewrite fold_left_app. Qed.

Lemma peak_fold_fst t st :
  fst (fold_left peak_step t st) = fold_left track t (fst st).
Proof.
  revert st. induction t as [|e t IH]; intros st; simpl; [reflexivity|].
  now rewrite IH.
Qed.

Lemma peak_open_snoc t e :
  peak_open (t ++ [e]) = Nat.max (peak_open t) (length (open_handles (t ++ [e]))).
Proof.
  unfold peak_open. rewrite fold_left_app. simpl.
  rewrite peak_fold_fst, open_handles_snoc. reflexivity.
Qed.

Lemma release_sites_app h t s :
  release_sites h (t ++ s) = release_sites h t ++ release_sites h s.
Proof. apply flat_map_app. Qed.

Lemma opened_ok_app h t s : opened_ok h (t ++ s) = opened_ok h t || opened_ok h s.
Proof. apply existsb_app. Qed.

Lemma signals_app t s : signals (t ++ s) = signals t ++ signals s.
Proof. apply filter_app. Qed.

Lemma frame_notifications_app t s :
  frame_notifications (t ++ s) = frame_notifications t ++ frame_notifications s.
Proof. apply flat_map_app. Qed.

Lemma error_notifications_app t s :
  error_notifications (t ++ s) = error_notifications t ++ error_notifications s.
Proof. apply flat_map_app. Qed.

Lemma reads_app t s : reads (t ++ s) = reads t ++ reads s.
Proof. apply flat_map_app. Qed.

Lemma failed_opens_app t s : failed_opens (t ++ s) = failed_opens t ++ failed_opens s.
Proof. apply flat_map_app. Qed.

Lemma property_hints_app t s :
  property_hints (t ++ s) = property_hints t ++ property_hints s.
Proof. apply flat_map_app. Qed.

Lemma captured_sources_app t s :
  captured_sources (t ++ s) = captured_sources t ++ captured_sources s.
Proof. apply flat_map_app. Qed.

Lemma thread_starts_app t s : thread_starts (t ++ s) = thread_starts t + thread_starts s.
Proof. unfold thread_starts. now rewrite filter_app, length_app. Qed.

(** The history of open captures never exceeds its peak. *)
Lemma open_handles_le_peak t s : length (open_handles t) <= peak_open (t ++ s).
Proof.
  induction s as [|e s IH] using rev_ind.
  - rewrite app_nil_r. destruct t as [|e t] using rev_ind; [simpl; lia|].
    rewrite peak_open_snoc. lia.
  - rewrite app_assoc, peak_open_snoc. lia.
Qed.

Lemma well_named_from_snoc t e n :
  well_named_from n (t ++ [e]) =
  well_named_from n t && allows (n + next_handle t) e.
Proof.
  revert n. induction t as [|e' t IH]; intros n.
  - simpl. now rewrite Nat.add_0_r, andb_true_r.
  - simpl. rewrite IH, andb_assoc. unfold next_handle. simpl.
    destruct (is_capture e'); simpl; now rewrite ?Nat.add_succ_r.
Qed.

Lemma well_named_snoc t e :
  well_named (t ++ [e]) <-> well_named t /\ allows (next_handle t) e = true.
Proof.
  unfold well_named. rewrite well_named_from_snoc, andb_true_iff. reflexivity.
Qed.

End TraceFacts.

(** ** [start_streaming] *)

Lemma start_streaming_failure_eq a self t :
  opens a = false ->
  start_streaming a self t =
  (false, with_cap (Some (next_handle (match cap self with
                                       | Some old => t ++ [CapRelease old AtStart]
                                       | None => t
                                       end))) self,
   (match cap self with
    | Some old => t ++ [CapRelease old AtStart]
    | None => t
    end) ++ [VideoCapture (next_handle (match cap self with
                                        | Some old => t ++ [CapRelease old AtStart]
                                        | None => t
                                        end)) (source self) false;
             Emit_error_occurred (open_error_message (source self))]).
Proof.
  intros H. unfold start_streaming. rewrite H. simpl.
  now rewrite <- app_assoc.
Qed.

(** C1, as stated, fails: with no camera attached, [start_streaming] on
    device 0 returns [False] and also emits [error_occurred], so the slot
    connected to it is invoked although no loop ever ran. *)
Lemma open_failure_reaches_the_error_consumer :
  let '(ok, _, t') :=
    start_streaming
      {| opens := false; accepts_width := false;
         accepts_height := false; accepts_fps := false |}
      (set_source (Device 0) CameraThread_init) [] in
  ok = false /\
  error_notifications t' = ["Failed to open camera source: 0"%string] /\
  error_notifications t' <> [].
Proof. repeat split. discriminate. Qed.

(** C1, amended: when the capture does not open, [start_streaming] returns
    [False], leaves the running flag and the thread as they were (so the
    session stays where it was, Idle for a fresh one, and no loop is
    started), delivers no frame, and emits [error_occurred] exactly once,
    with the open-failure message. *)
Theorem start_streaming_open_failure :
  forall (a : cv_answers) (self : CameraThread) (t : trace),
    opens a = false ->
    let '(ok, self', t') := start_streaming a self t in
    ok = false /\
    running self' = running self /\
    thread self' = thread self /\
    session_state self' = session_state self /\
    thread_starts t' = thread_starts t /\
    frame_notifications t' = frame_notifications t /\
    error_notifications t' =
      error_notifications t ++ [open_error_message (source self)].
Proof.
  intros a self t H. rewrite (start_streaming_failure_eq _ _ _ H).
  destruct (cap self);
    rewrite ?thread_starts_app, ?frame_notifications_app, ?error_notifications_app;
    simpl; rewrite ?Nat.add_0_r, ?app_nil_r; repeat split; reflexivity.
Qed.

Lemma start_streaming_open_failure_witness :
  opens {| opens := false; accepts_width := true;
           accepts_height := true; accepts_fps := true |} = false /\
  let '(ok, self', t') :=
    start_streaming
      {| opens := false; accepts_width := true;
         accepts_height := true; accepts_fps := true |}
      (set_source (Stream "rtsp://10.0.0.7/live") CameraThread_init) [] in
  ok = false /\
  running self' = running (set_source (Stream "rtsp://10.0.0.7/live") CameraThread_init) /\
  thread self' = thread (set_source (Stream "rtsp://10.0.0.7/live") CameraThread_init) /\
  session_state self' =
    session_state (set_source (Stream "rtsp://10.0.0.7/live") CameraThread_init) /\
  thread_starts t' = thread_starts [] /\
  frame_notifications t' = frame_notifications [] /\
  error_notifications t' =
    error_notifications [] ++
    [open_error_message
       (source (set_source (Stream "rtsp://10.0.0.7/live") CameraThread_init))].
Proof.
  split; [reflexivity|].
  exact (start_streaming_open_failure
           {| opens := false; accepts_width := true;
              accepts_height := true; accepts_fps := true |}
           (set_source (Stream "rtsp://10.0.0.7/live") CameraThread_init) []
           eq_refl).
Defined.

(** C9: when the capture opens, [start_streaming] applies width 1280,
    height 720 and 30 frames per second to it, in this order, after the
    open and before the thread is started; whatever [cap.set] answers, the
    call returns [True] with the flag set and the loop running.  When the
    capture does not open, no property is set and no thread is started. *)
Theorem start_streaming_applies_hints :
  forall (a : cv_answers) (self : CameraThread) (t : trace),
    let '(ok, self', t') := start_streaming a self t in
    let t0 := match cap self with
              | Some old => t ++ [CapRelease old AtStart]
              | None => t
              end in
    let h := next_handle t0 in
    if opens a then
      ok = true /\ cap self' = Some h /\
      running self' = true /\ isRunning self' = true /\
      t' = t0 ++ [VideoCapture h (source self) true;
                  CapSet h CAP_PROP_FRAME_WIDTH 1280 (accepts_width a);
                  CapSet h CAP_PROP_FRAME_HEIGHT 720 (accepts_height a);
                  CapSet h CAP_PROP_FPS 30 (accepts_fps a)]
               ++ (if isRunning self then [] else [ThreadStart])
    else
      ok = false /\
      property_hints t' = property_hints t /\
      thread_starts t' = thread_starts t /\
      thread self' = thread self /\
      running self' = running self.
Proof.
  intros a self t. destruct (opens a) eqn:H.
  - unfold start_streaming. rewrite H. cbn [negb].
    unfold start, isRunning. destruct self as [r c src q].
    destruct c, q; cbn; rewrite <- ?app_assoc; cbn; rewrite ?app_nil_r;
      repeat split; reflexivity.
  - rewrite (start_streaming_failure_eq _ _ _ H).
    destruct (cap self);
      rewrite ?thread_starts_app, ?property_hints_app;
      simpl; rewrite ?Nat.add_0_r, ?app_nil_r; repeat split; reflexivity.
Qed.

(** ** Captures that are not constructed yet *)

Lemma next_handle_snoc t e :
  next_handle (t ++ [e]) = next_handle t + (if is_capture e then 1 else 0).
Proof. rewrite next_handle_app. unfold next_handle. simpl. now destruct (is_capture e). Qed.

Lemma well_named_fresh t h :
  well_named t -> next_handle t <= h ->
  release_sites h t = [] /\ opened_ok h t = false /\ ~ In h (open_handles t).
Proof.
  induction t as [|e t IH] using rev_ind; intros Hw Hh.
  - repeat split. intros [].
  - apply well_named_snoc in Hw. destruct Hw as [Hw He].
    rewrite next_handle_snoc in Hh.
    destruct IH as (IH1 & IH2 & IH3); [assumption|lia|].
    rewrite release_sites_app, opened_ok_app, open_handles_snoc, IH1, IH2.
    destruct e; simpl in *;
      try (apply Nat.eqb_eq in He); try (apply Nat.ltb_lt in He);
      repeat split; try assumption; try reflexivity.
    + destruct opened; [|reflexivity].
      rewrite orb_false_r. apply Nat.eqb_neq. lia.
    + destruct opened; [|assumption].
      intros Hin. apply in_app_or in Hin. destruct Hin as [|[Heq|[]]]; [tauto|lia].
    + replace (h0 =? h) with false by (symmetry; apply Nat.eqb_neq; lia). reflexivity.
    + intros Hin. apply filter_In in Hin. tauto.
Qed.

Lemma filter_out_absent (h : handle) (l : list handle) :
  ~ In h l -> filter (fun h' => negb (h' =? h)) l = l.
Proof.
  induction l as [|x l IH]; intros Hn; simpl; [reflexivity|].
  destruct (Nat.eqb_spec x h) as [->|Hx]; simpl.
  - exfalso. apply Hn. now left.
  - f_equal. apply IH. intros Hin. apply Hn. now right.
Qed.

Lemma filter_out_last (h : handle) (l : list handle) :
  ~ In h l -> filter (fun h' => negb (h' =? h)) (l ++ [h]) = l.
Proof.
  intros Hn. rewrite filter_app, filter_out_absent by assumption.
  simpl. rewrite Nat.eqb_refl. simpl. apply app_nil_r.
Qed.

(** ** [get_available_cameras] *)

Lemma probe_eq isOpened acc t i :
  probe isOpened (acc, t) i =
  (acc ++ (if isOpened i then [i] else []),
   (t ++ [VideoCapture (next_handle t) (Device i) (isOpened i)])
     ++ (if isOpened i then [CapRelease (next_handle t) AtProbe] else [])).
Proof. unfold probe. destruct (isOpened i); now rewrite ?app_nil_r. Qed.

Lemma probe_fold_result isOpened l : forall acc t,
  fst (fold_left (probe isOpened) l (acc, t)) = acc ++ filter isOpened l /\
  captured_sources (snd (fold_left (probe isOpened) l (acc, t))) =
    captured_sources t ++ map Device l.
Proof.
  induction l as [|i l IH]; intros acc t; cbn [fold_left].
  - simpl. now rewrite !app_nil_r.
  - rewrite probe_eq. destruct (IH (acc ++ (if isOpened i then [i] else []))
      ((t ++ [VideoCapture (next_handle t) (Device i) (isOpened i)])
         ++ (if isOpened i then [CapRelease (next_handle t) AtProbe] else [])))
      as [IH1 IH2].
    split; [etransitivity; [exact IH1|] | etransitivity; [exact IH2|]];
      rewrite ?captured_sources_app; simpl;
      destruct (isOpened i); simpl; rewrite <- ?app_assoc; reflexivity.
Qed.

Lemma filter_sorted (f : Z -> bool) (l : list Z) :
  StronglySorted Z.lt l -> StronglySorted Z.lt (filter f l).
Proof.
  induction 1 as [|x l Hs IH Hx]; simpl; [constructor|].
  destruct (f x); [|assumption].
  constructor; [assumption|].
  rewrite Forall_forall in *. intros y Hy. apply filter_In in Hy. apply Hx. tauto.
Qed.

(** C6: the scan constructs a capture for each of the device indices
    0, 1, ..., 9, in this order and for nothing else, and returns exactly
    the indices whose capture opened, in ascending order; when none opens
    it returns the empty list. *)
Theorem get_available_cameras_scan :
  forall (isOpened : Z -> bool) (t : trace),
    fst (get_available_cameras isOpened t) =
      filter isOpened [0; 1; 2; 3; 4; 5; 6; 7; 8; 9]%Z /\
    captured_sources (snd (get_available_cameras isOpened t)) =
      captured_sources t ++
      map Device [0; 1; 2; 3; 4; 5; 6; 7; 8; 9]%Z /\
    StronglySorted Z.lt (fst (get_available_cameras isOpened t)) /\
    (forall i : Z, In i (fst (get_available_cameras isOpened t)) <->
                   (0 <= i <= 9)%Z /\ isOpened i = true) /\
    fst (get_available_cameras (fun _ => false) t) = [].
Proof.
  intros isOpened t. unfold get_available_cameras.
  destruct (probe_fold_result isOpened (range 10) [] t) as [H1 H2].
  change (range 10) with [0; 1; 2; 3; 4; 5; 6; 7; 8; 9]%Z in *.
  cbn [app] in H1.
  assert (E : forall p : list Z * trace,
             fst p = filter isOpened [0; 1; 2; 3; 4; 5; 6; 7; 8; 9]%Z ->
             StronglySorted Z.lt (fst p) /\
             (forall i : Z, In i (fst p) <-> (0 <= i <= 9)%Z /\ isOpened i = true)).
  { intros p ->. split; [apply filter_sorted; repeat constructor|].
    intros i. rewrite filter_In. split.
    - intros [Hi Ho]. simpl in Hi. split; [lia|assumption].
    - intros [Hr Ho]. split; [|assumption].
      assert (i = 0 \/ i = 1 \/ i = 2 \/ i = 3 \/ i = 4 \/ i = 5 \/ i = 6 \/
              i = 7 \/ i = 8 \/ i = 9)%Z as Hc by lia.
      simpl. intuition. }
  destruct (E _ H1) as [E1 E2].
  split; [exact H1|]. split; [exact H2|]. split; [exact E1|]. split; [exact E2|].
  exact (proj1 (probe_fold_result (fun _ => false) (range 10) [] t)).
Qed.

Lemma peak_open_ge t : length (open_handles t) <= peak_open t.
Proof. generalize (open_handles_le_peak t []). now rewrite app_nil_r. Qed.

Lemma probes_closed_refl t : well_named t -> probes_closed 0 t t.
Proof.
  intros Hw. unfold probes_closed. rewrite Nat.add_0_r.
  repeat split; try assumption; try reflexivity; try lia.
Qed.

Lemma probes_closed_trans n m t1 t2 t3 :
  probes_closed n t1 t2 -> probes_closed m t2 t3 -> probes_closed (n + m) t1 t3.
Proof.
  intros (W2 & O2 & N2 & K2 & F2 & P2) (W3 & O3 & N3 & K3 & F3 & P3).
  unfold probes_closed. repeat split; try assumption.
  - congruence.
  - lia.
  - destruct (K2 h H) as [<- _]. apply K3. lia.
  - destruct (K2 h H) as [_ <-]. apply K3. lia.
  - intros h H1 H3. destruct (Nat.lt_ge_cases h (next_handle t2)) as [Hlt|Hge].
    + destruct (K3 h Hlt) as [-> ->]. now apply F2.
    + now apply F3.
  - rewrite O2 in P3. lia.
Qed.

Lemma probe_closes isOpened acc t i :
  well_named t -> probes_closed 1 t (snd (probe isOpened (acc, t) i)).
Proof.
  intros Hw. rewrite probe_eq. cbn [snd].
  pose proof (well_named_fresh t (next_handle t) Hw (le_n _)) as (R0 & K0 & I0).
  pose proof (peak_open_ge t) as Hp.
  assert (Hneq : forall h, h < next_handle t -> (next_handle t =? h) = false)
    by (intros h Hh; apply Nat.eqb_neq; lia).
  unfold probes_closed. destruct (isOpened i).
  - repeat split.
    + apply well_named_snoc. split.
      * apply well_named_snoc. split; [assumption|]. simpl. apply Nat.eqb_refl.
      * rewrite next_handle_snoc. simpl. apply Nat.ltb_lt. lia.
    + rewrite !open_handles_snoc. simpl. now apply filter_out_last.
    + rewrite !next_handle_snoc. simpl. lia.
    + rewrite !release_sites_app. simpl. rewrite (Hneq h H). now rewrite !app_nil_r.
    + rewrite !opened_ok_app. simpl. rewrite (Hneq h H). now rewrite !orb_false_r.
    + intros h H1 H2. rewrite !next_handle_snoc in H2. simpl in H2.
      assert (h = next_handle t) as -> by lia.
      rewrite !release_sites_app, !opened_ok_app, R0, K0. simpl.
      now rewrite Nat.eqb_refl.
    + rewrite !peak_open_snoc, !open_handles_snoc. simpl.
      rewrite filter_out_last by assumption. rewrite length_app. simpl. lia.
  - rewrite app_nil_r. repeat split.
    + apply well_named_snoc. split; [assumption|]. simpl. apply Nat.eqb_refl.
    + rewrite open_handles_snoc. reflexivity.
    + rewrite next_handle_snoc. reflexivity.
    + rewrite release_sites_app. simpl. now rewrite app_nil_r.
    + rewrite opened_ok_app. simpl. now rewrite orb_false_r.
    + intros h H1 H2. rewrite next_handle_snoc in H2. simpl in H2.
      assert (h = next_handle t) as -> by lia.
      rewrite release_sites_app, opened_ok_app, R0, K0. reflexivity.
    + rewrite peak_open_snoc, open_handles_snoc. simpl. lia.
Qed.

Lemma probe_fold_closes isOpened l : forall acc t,
  well_named t ->
  probes_closed (length l) t (snd (fold_left (probe isOpened) l (acc, t))).
Proof.
  induction l as [|i l IH]; intros acc t Hw; cbn [fold_left length].
  - now apply probes_closed_refl.
  - pose proof (probe_closes isOpened acc t i Hw) as H1.
    destruct (probe isOpened (acc, t) i) as [acc1 t1] eqn:E. cbn [snd] in H1.
    change (S (length l)) with (1 + length l).
    eapply probes_closed_trans; [exact H1|]. apply IH. apply H1.
Qed.

(** C7: whatever the ten probes answer, when [get_available_cameras]
    returns the captures that are open are the ones that were open before
    it: every capture the scan opened was released exactly once, by the
    probe that opened it, a capture that did not open holds nothing and is
    not released, the captures of a running session are not touched, and at
    no instant did the scan hold more than one capture open. *)
Theorem get_available_cameras_closes_probes :
  forall (isOpened : Z -> bool) (t : trace),
    well_named t ->
    let t' := snd (get_available_cameras isOpened t) in
    open_handles t' = open_handles t /\
    next_handle t' = next_handle t + 10 /\
    Forall (fun h => release_sites h t' = if opened_ok h t' then [AtProbe] else [])
           (seq (next_handle t) 10) /\
    Forall (fun h => release_sites h t' = release_sites h t)
           (seq 0 (next_handle t)) /\
    peak_open t' <= Nat.max (peak_open t) (S (length (open_handles t))).
Proof.
  intros isOpened t Hw t'.
  destruct (probe_fold_closes isOpened (range 10) [] t Hw)
    as (W & O & N & K & F & P).
  fold (get_available_cameras isOpened t) in *. fold t' in W, O, N, K, F, P.
  change (length (range 10)) with 10 in N.
  repeat split; try assumption.
  - apply Forall_forall. intros h Hh. apply in_seq in Hh. apply F; lia.
  - apply Forall_forall. intros h Hh. apply in_seq in Hh. apply K. lia.
Qed.

Lemma get_available_cameras_closes_probes_witness :
  well_named [VideoCapture 0 (Device 0) true; ThreadStart] /\
  let t := [VideoCapture 0 (Device 0) true; ThreadStart] in
  let t' := snd (get_available_cameras (fun i => (i =? 1)%Z || (i =? 4)%Z) t) in
  open_handles t' = open_handles t /\
  next_handle t' = next_handle t + 10 /\
  Forall (fun h => release_sites h t' = if opened_ok h t' then [AtProbe] else [])
         (seq (next_handle t) 10) /\
  Forall (fun h => release_sites h t' = release_sites h t)
         (seq 0 (next_handle t)) /\
  peak_open t' <= Nat.max (peak_open t) (S (length (open_handles t))).
Proof.
  split; [reflexivity|].
  exact (get_available_cameras_closes_probes
           (fun i => (i =? 1)%Z || (i =? 4)%Z)
           [VideoCapture 0 (Device 0) true; ThreadStart] eq_refl).
Defined.

(** ** [generate_random_plate] *)

Lemma choice_draws a size g :
  a <> [] ->
  length (fst (choice a size g)) = size /\
  Forall (fun c => In c a) (fst (choice a size g)).
Proof.
  intros Ha. unfold choice. cbn [fst]. split.
  - now rewrite length_map, length_seq.
  - apply Forall_forall. intros c Hc. apply in_map_iff in Hc.
    destruct Hc as (k & <- & _). apply nth_In.
    apply Nat.mod_upper_bound. destruct a; [congruence|discriminate].
Qed.

Lemma list_ascii_of_string_app (s1 s2 : string) :
  list_ascii_of_string (s1 ++ s2) = list_ascii_of_string s1 ++ list_ascii_of_string s2.
Proof. induction s1 as [|c s1 IH]; simpl; [reflexivity|now rewrite IH]. Qed.

(** C10: whatever the generator draws, the plate has the shape its template
    fixes: "EU" gives three letters, a hyphen and three digits (7
    characters); "US" gives four digits and three letters (7 characters);
    any other template gives two letters and four digits (6 characters).
    The letters are the 24 capitals other than I and O. *)
Theorem generate_random_plate_shape :
  forall (country_template : string) (g : rng),
    let plate := list_ascii_of_string (fst (generate_random_plate country_template g)) in
    (exists letters numbers : list ascii,
        Forall (fun c => In c plate_letters) letters /\
        Forall (fun c => In c plate_digits) numbers /\
        if (country_template =? "EU")%string then
          plate = letters ++ ["-"%char] ++ numbers /\
          length letters = 3 /\ length numbers = 3 /\ length plate = 7
        else if (country_template =? "US")%string then
          plate = numbers ++ letters /\
          length numbers = 4 /\ length letters = 3 /\ length plate = 7
        else
          plate = letters ++ numbers /\
          length letters = 2 /\ length numbers = 4 /\ length plate = 6) /\
    plate_letters =
      filter (fun c => negb (Ascii.eqb c "I" || Ascii.eqb c "O"))
             (list_ascii_of_string "ABCDEFGHIJKLMNOPQRSTUVWXYZ") /\
    length plate_letters = 24 /\
    plate_digits = map (fun d => ascii_of_nat (48 + d)) (seq 0 10).
Proof.
  intros country_template g plate. split; [|repeat split].
  assert (HL : plate_letters <> []) by discriminate.
  assert (HD : plate_digits <> []) by discriminate.
  subst plate. unfold generate_random_plate.
  destruct (country_template =? "EU")%string;
    [|destruct (country_template =? "US")%string].
  - destruct (choice_draws plate_letters 3 g HL) as [L1 L2].
    destruct (choice plate_letters 3 g) as [letters g1]. cbn [fst] in *.
    destruct (choice_draws plate_digits 3 g1 HD) as [D1 D2].
    destruct (choice plate_digits 3 g1) as [numbers g2]. cbn [fst] in *.
    exists letters, numbers.
    rewrite !list_ascii_of_string_app, !list_ascii_of_string_of_list_ascii.
    repeat split; try assumption.
    rewrite !length_app, L1, D1. reflexivity.
  - destruct (choice_draws plate_letters 3 g HL) as [L1 L2].
    destruct (choice plate_letters 3 g) as [letters g1]. cbn [fst] in *.
    destruct (choice_draws plate_digits 4 g1 HD) as [D1 D2].
    destruct (choice plate_digits 4 g1) as [numbers g2]. cbn [fst] in *.
    exists letters, numbers.
    rewrite !list_ascii_of_string_app, !list_ascii_of_string_of_list_ascii.
    repeat split; try assumption.
    rewrite !length_app, L1, D1. reflexivity.
  - destruct (choice_draws plate_letters 2 g HL) as [L1 L2].
    destruct (choice plate_letters 2 g) as [letters g1]. cbn [fst] in *.
    destruct (choice_draws plate_digits 4 g1 HD) as [D1 D2].
    destruct (choice plate_digits 4 g1) as [numbers g2]. cbn [fst] in *.
    exists letters, numbers.
    rewrite !list_ascii_of_string_app, !list_ascii_of_string_of_list_ascii.
    repeat split; try assumption.
    rewrite !length_app, L1, D1. reflexivity.
Qed.

(** ** One more event *)

Lemma closed_fold_fst t st :
  fst (fold_left closed_step t st) = fold_left track t (fst st).
Proof.
  revert st. induction t as [|e t IH]; intros st; simpl; [reflexivity|].
  now rewrite IH.
Qed.

Lemma captures_when_closed_snoc t e :
  captures_when_closed (t ++ [e]) =
  captures_when_closed t &&
  (if is_capture e then match open_handles t with [] => true | _ :: _ => false end
   else true).
Proof.
  unfold captures_when_closed. rewrite fold_left_app. simpl.
  now rewrite closed_fold_fst.
Qed.

Lemma expected_signals_app t s :
  expected_signals (t ++ s) = expected_signals t ++ expected_signals s.
Proof. apply flat_map_app. Qed.

Create Rewrite HintDb trace.

#[local] Hint Rewrite
  next_handle_snoc open_handles_snoc peak_open_snoc release_sites_app
  opened_ok_app signals_app expected_signals_app captures_when_closed_snoc
  : trace.

(** ** The invariant of the two threads *)

Lemma thread_ok_same_flags pc pc' self t :
  flag_cleared pc' = flag_cleared pc -> is_returned pc' = is_returned pc ->
  post_wait pc' = post_wait pc -> is_start_new pc' = is_start_new pc ->
  is_clear pc' = is_clear pc ->
  thread_ok pc self t -> thread_ok pc' self t.
Proof. unfold thread_ok. now intros -> -> -> -> ->. Qed.

Lemma enter_Inv c call : Inv c -> Inv (enter call c).
Proof.
  destruct c as [ct pc t]. unfold enter. cbn [main camera_thread].
  destruct pc; try (intros H; exact H).
  intros (Hw & Hp & Hc & Hs & Ht & Hsig).
  destruct call, ct as [self|]; unfold Inv, goto; cbn [main camera_thread hist] in *;
    repeat split; try assumption; try tauto;
    try (eapply thread_ok_same_flags; [..|exact Ht]; reflexivity).
Qed.

Lemma well_named_snoc_intro t e :
  well_named t -> allows (next_handle t) e = true -> well_named (t ++ [e]).
Proof. intros. apply well_named_snoc. now split. Qed.

Ltac norm :=
  cbv beta iota zeta delta
    [step worker_step main_step enter goto update_thread with_thread with_cap
     with_running set_source camera_thread main hist thread cap running source
     isRunning is_not_None andb pending pending_of held_by is_W_clear
     Inv thread_ok settled] in *.

#[local] Hint Rewrite Nat.add_0_r app_nil_r orb_false_r orb_true_r andb_true_r Nat.eqb_refl : trace.

Ltac break :=
  repeat match goal with
         | H : _ /\ _ |- _ => destruct H
         | H : exists _, _ |- _ => destruct H
         | |- _ /\ _ => split
         | |- forall _, _ => intro
         | |- exists _, _ => eexists
         end.

Ltac use_facts :=
  repeat match goal with
         | H : open_handles ?t = _ |- context [open_handles ?t] => rewrite H
         | H : opened_ok ?h ?t = _ |- context [opened_ok ?h ?t] => rewrite H
         | H : release_sites ?h ?t = _ |- context [release_sites ?h ?t] => rewrite H
         end.

Ltac unsome :=
  repeat match goal with
         | H : Some ?a <> Some ?b |- _ =>
             assert (a <> b) by congruence; clear H
         end.

Ltac by_settled :=
  match goal with
  | Hs : forall x, x < _ -> _ -> _ |- _ =>
      solve [apply Hs; [lia | first [assumption | congruence | tauto]]]
  end.

Ltac settle :=
  unsome;
  first
    [ by_settled
    | match goal with
      | H : opened_ok ?h ?t = _ |- context [opened_ok ?h0 ?t] =>
          destruct (Nat.eq_dec h h0) as [->|];
          [ use_facts; cbn; solve [reflexivity | tauto | congruence | auto]
          | by_settled ]
      end ].

Ltac wn :=
  first
    [ assumption
    | apply well_named_snoc_intro;
      [ wn
      | autorewrite with trace; cbn; autorewrite with trace;
        first [reflexivity | apply Nat.ltb_lt; lia | apply Nat.eqb_refl] ] ].

Ltac simp_events :=
  autorewrite with trace in *; cbn in *; use_facts; cbn;
  repeat match goal with
         | |- context [?a =? ?b] =>
             destruct (Nat.eqb_spec a b); subst; cbn; try congruence; try lia
         end;
  autorewrite with trace in *.

Ltac finish :=
  rewrite ?app_nil_r in *;
  do 2 simp_events;
  try solve [ assumption | reflexivity | lia | tauto | congruence
            | wn
            | settle
            | f_equal; assumption
            | rewrite <- ?app_assoc; simpl; assumption ].

Lemma work_Inv c rd : Inv c -> Inv (step c (Work rd)).
Proof.
  destruct c as [ct pc t].
  destruct ct as [self|]; [|intros H; exact H].
  destruct self as [r cp src q].
  destruct q as [|w| |]; try (intros H; exact H).
  norm.
  intros (Hw & Hp & Hc & Hs & (Hf & Hr & Hpw & Hsn & Hcap) & Hsig).
  destruct cp as [h|]; [|contradiction].
  destruct w; norm;
    [ destruct r | destruct rd | .. ]; norm; break; finish.
Qed.

Lemma start_streaming_fresh a src t :
  start_streaming a (set_source src CameraThread_init) t =
  if opens a then
    (true,
     {| running := true; cap := Some (next_handle t); source := src;
        thread := Active W_head |},
     ((((t ++ [VideoCapture (next_handle t) src true])
          ++ [CapSet (next_handle t) CAP_PROP_FRAME_WIDTH 1280 (accepts_width a)])
         ++ [CapSet (next_handle t) CAP_PROP_FRAME_HEIGHT 720 (accepts_height a)])
        ++ [CapSet (next_handle t) CAP_PROP_FPS 30 (accepts_fps a)])
       ++ [ThreadStart])
  else
    (false,
     {| running := false; cap := Some (next_handle t); source := src;
        thread := NotStarted |},
     (t ++ [VideoCapture (next_handle t) src false])
       ++ [Emit_error_occurred (open_error_message src)]).
Proof.
  unfold start_streaming. cbn. destruct (opens a); cbn.
  - now rewrite <- !app_assoc.
  - now rewrite <- !app_assoc.
Qed.

Lemma main_Inv c a : Inv c -> Inv (step c (Main a)).
Proof.
  destruct c as [ct pc t]. intros HI.
  pose proof (well_named_fresh t (next_handle t) (proj1 HI) (le_n _)) as (F1 & F2 & F3).
  revert HI.
  destruct pc as [|src|src| |k|k|k|k|k|[src| |]].
  3: { unfold step, main_step. cbn [main hist]. rewrite start_streaming_fresh.
       destruct (opens a); norm;
         (destruct ct as [[r cp src' q]|]; norm; [destruct q, cp|]; norm;
          intros; break; finish). }
  all: norm; destruct ct as [[r cp src' q]|]; norm; [destruct q, cp|]; norm;
    intros; break; finish.
Qed.

Lemma step_Inv c k : Inv c -> Inv (step c k).
Proof.
  destruct k as [call|a|rd].
  - apply enter_Inv.
  - apply main_Inv.
  - apply work_Inv.
Qed.

Lemma init_Inv : Inv init.
Proof. unfold Inv, init. cbn. repeat split; try reflexivity; lia. Qed.

Lemma exec_Inv ks : forall c, Inv c -> Inv (exec ks c).
Proof.
  induction ks as [|k ks IH]; intros c Hc; [exact Hc|].
  apply IH, step_Inv, Hc.
Qed.

Lemma reachable_Inv ks : Inv (exec ks init).
Proof. apply exec_Inv, init_Inv. Qed.

(** ** What happened since *)


Lemma exec_app ks1 ks2 c : exec (ks1 ++ ks2) c = exec ks2 (exec ks1 c).
Proof. apply fold_left_app. Qed.

Lemma step_extends c k : exists s, hist (step c k) = hist c ++ s.
Proof.
  destruct c as [ct pc t]. destruct k as [call|a|rd].
  - exists []. rewrite app_nil_r. cbn. unfold enter. cbn.
    destruct pc; try reflexivity. destruct call; try reflexivity.
    destruct ct; reflexivity.
  - cbn [step]. destruct pc as [|src|src| |k|k|k|k|k|[src| |]];
      try (exists []; rewrite app_nil_r; cbn;
           repeat match goal with
                  | |- context [match ?x with _ => _ end] => destruct x; cbn
                  end; reflexivity).
    + unfold main_step. cbn [main hist]. rewrite start_streaming_fresh.
      destruct (opens a); cbn [hist]; rewrite <- ?app_assoc; eexists; reflexivity.
    + unfold main_step. cbn. destruct ct as [self|]; cbn.
      * destruct (cap self); cbn; [eexists; reflexivity|].
        exists []. now rewrite app_nil_r.
      * exists []. now rewrite app_nil_r.
  - cbn [step camera_thread hist main]. destruct ct as [self|]; cbn [hist].
    + destruct self as [r cp src q].
      destruct q as [|w| |]; [| destruct w; destruct r, cp, rd |..]; cbn;
        first [ exists []; now rewrite app_nil_r | eexists; reflexivity ].
    + exists []. now rewrite app_nil_r.
Qed.

Lemma exec_extends ks : forall c, exists s, hist (exec ks c) = hist c ++ s.
Proof.
  induction ks as [|k ks IH]; intros c; cbn.
  - exists []. now rewrite app_nil_r.
  - destruct (IH (step c k)) as [s2 H2]. destruct (step_extends c k) as [s1 H1].
    exists (s1 ++ s2). fold (exec ks (step c k)). now rewrite H2, H1, app_assoc.
Qed.

Lemma since_spec c0 ks : hist (exec ks c0) = hist c0 ++ since c0 (exec ks c0).
Proof.
  unfold since. destruct (exec_extends ks c0) as [s ->].
  now rewrite skipn_app, skipn_all, Nat.sub_diag.
Qed.

Lemma idle_worker_stays c rds : loop_running c = false -> exec (map Work rds) c = c.
Proof.
  intros H. induction rds as [|rd rds IH]; [reflexivity|].
  cbn [map exec fold_left]. fold (exec (map Work rds) (step c (Work rd))).
  assert (E : step c (Work rd) = c).
  { destruct c as [[self|] pc t]; [|reflexivity].
    destruct self as [r cp src q]. unfold loop_running, isRunning in H. cbn in H.
    destruct q; try discriminate; reflexivity. }
  now rewrite E.
Qed.

Lemma expected_of_reads s :
  failed_opens s = [] -> expected_signals s = flat_map owed_read (reads s).
Proof.
  unfold expected_signals, reads, failed_opens.
  induction s as [|e s IH]; intros H; [reflexivity|].
  destruct e; cbn in *; try (apply IH; assumption).
  - destruct opened; [apply IH; assumption | discriminate].
  - destruct r; cbn; now rewrite IH.
Qed.

Lemma frame_notifications_signals t :
  frame_notifications (signals t) = frame_notifications t.
Proof.
  unfold frame_notifications, signals.
  induction t as [|e t IH]; [reflexivity|].
  destruct e; cbn in *; try assumption; now rewrite IH.
Qed.

Lemma error_notifications_signals t :
  error_notifications (signals t) = error_notifications t.
Proof.
  unfold error_notifications, signals.
  induction t as [|e t IH]; [reflexivity|].
  destruct e; cbn in *; try assumption; now rewrite IH.
Qed.

Lemma owed_frames fs :
  flat_map owed_read (map Some fs ++ [None]) =
  flat_map (fun f => [Emit_frame_ready_raw f; Emit_frame_ready (qt_image f)]) fs
    ++ [Emit_error_occurred read_error_message].
Proof. induction fs as [|f fs IH]; cbn; [reflexivity|]. now rewrite IH. Qed.

Lemma frames_of_deliveries fs :
  frame_notifications
    (flat_map (fun f => [Emit_frame_ready_raw f; Emit_frame_ready (qt_image f)]) fs
       ++ [Emit_error_occurred read_error_message]) = fs /\
  error_notifications
    (flat_map (fun f => [Emit_frame_ready_raw f; Emit_frame_ready (qt_image f)]) fs
       ++ [Emit_error_occurred read_error_message]) = [read_error_message].
Proof.
  unfold frame_notifications, error_notifications.
  induction fs as [|f fs [IH1 IH2]]; cbn in *; [split; reflexivity|].
  split; [now f_equal | assumption].
Qed.

Lemma pending_idle c : loop_running c = false -> pending_of c = [].
Proof.
  unfold loop_running, pending_of, isRunning.
  destruct (camera_thread c) as [self|]; [|reflexivity].
  destruct (thread self); try reflexivity. discriminate.
Qed.

(** C2: take any point where no loop is running and any schedule from
    there (calls, GUI statements and worker statements interleaved at will)
    after which no loop is running either.  If in between every capture
    opened and the reads yielded the frames F1, ..., Fn and then a failure,
    the signals emitted in between are exactly, in this order,
    [frame_ready_raw] and [frame_ready] for F1, ..., for Fn, and then one
    [error_occurred] with the read-failure message: the slot on
    [frame_ready_raw] receives F1, ..., Fn, the slot on [error_occurred]
    receives one message, and the worker emits nothing afterwards however
    often it is scheduled. *)
Theorem run_delivers_in_read_order :
  forall (ks ks' : list tick) (fs : list frame),
    let c0 := exec ks init in
    let c := exec ks' c0 in
    loop_running c0 = false ->
    loop_running c = false ->
    failed_opens (since c0 c) = [] ->
    reads (since c0 c) = map Some fs ++ [None] ->
    signals (since c0 c) =
      flat_map (fun f => [Emit_frame_ready_raw f; Emit_frame_ready (qt_image f)]) fs
        ++ [Emit_error_occurred read_error_message] /\
    frame_notifications (since c0 c) = fs /\
    error_notifications (since c0 c) = [read_error_message] /\
    forall rds : list (option frame), exec (map Work rds) c = c.
Proof.
  intros ks ks' fs c0 c H0 H1 Hf Hr.
  assert (I0 : Inv c0) by apply reachable_Inv.
  assert (I1 : Inv c) by (apply exec_Inv, reachable_Inv).
  destruct I0 as (_ & _ & _ & _ & _ & S0).
  destruct I1 as (_ & _ & _ & _ & _ & S1).
  rewrite (pending_idle _ H0), app_nil_r in S0.
  rewrite (pending_idle _ H1), app_nil_r in S1.
  unfold c in S1. rewrite since_spec in S1. fold c in S1.
  rewrite signals_app, expected_signals_app, S0 in S1.
  apply app_inv_head in S1.
  rewrite (expected_of_reads _ Hf), Hr, owed_frames in S1.
  split; [exact S1|].
  rewrite <- frame_notifications_signals, <- error_notifications_signals, S1.
  destruct (frames_of_deliveries fs) as [E1 E2].
  repeat split; try assumption.
  intros rds. now apply idle_worker_stays.
Qed.

(** The loop does run to its end on such a source. *)
Lemma run_to_failure (fs : list frame) : forall src pc t h,
  exec (worker_schedule fs)
       {| camera_thread := Some {| running := true; cap := Some h; source := src;
                                   thread := Active W_head |};
          main := pc; hist := t |} =
  {| camera_thread := Some {| running := true; cap := None; source := src;
                              thread := Finished |};
     main := pc;
     hist := t ++ flat_map (fun f => [CapRead h (Some f); Emit_frame_ready_raw f;
                                      Emit_frame_ready (qt_image f)]) fs
               ++ [CapRead h None; Emit_error_occurred read_error_message;
                   CapRelease h AtLoopExit] |}.
Proof.
  unfold worker_schedule.
  induction fs as [|f fs IH]; intros src pc t h.
  - cbn. now rewrite <- !app_assoc.
  - cbn [flat_map]. rewrite <- app_assoc, exec_app.
    cbn [repeat exec fold_left step worker_step thread running cap andb is_not_None
         with_thread camera_thread hist main source].
    etransitivity; [apply IH|]. now rewrite <- !app_assoc.
Qed.

Lemma run_delivers_in_read_order_witness :
  let f1 := {| shape_h := 1; shape_w := 1; shape_ch := BGR; data := [10; 20; 30]%N |} in
  let f2 := {| shape_h := 1; shape_w := 1; shape_ch := BGR; data := [40; 50; 60]%N |} in
  let yes := {| opens := true; accepts_width := true;
                accepts_height := false; accepts_fps := true |} in
  let ks := [Call (Call_start_stream (Device 0)); Main yes] in
  let ks' := Main yes :: worker_schedule [f1; f2] in
  let c0 := exec ks init in
  let c := exec ks' c0 in
  loop_running c0 = false /\
  loop_running c = false /\
  failed_opens (since c0 c) = [] /\
  reads (since c0 c) = map Some [f1; f2] ++ [None] /\
  signals (since c0 c) =
    flat_map (fun f => [Emit_frame_ready_raw f; Emit_frame_ready (qt_image f)]) [f1; f2]
      ++ [Emit_error_occurred read_error_message] /\
  frame_notifications (since c0 c) = [f1; f2] /\
  error_notifications (since c0 c) = [read_error_message] /\
  forall rds : list (option frame), exec (map Work rds) c = c.
Proof.
  intros f1 f2 yes ks ks' c0 c.
  split; [reflexivity|]. split; [reflexivity|].
  split; [reflexivity|]. split; [reflexivity|].
  exact (run_delivers_in_read_order ks ks' [f1; f2] eq_refl eq_refl eq_refl eq_refl).
Defined.

(** ** At most one capture is open *)

Lemma captures_when_closed_prefix t : forall p h src b r,
  captures_when_closed t = true ->
  t = p ++ VideoCapture h src b :: r ->
  open_handles p = [].
Proof.
  induction t as [|e t IH] using rev_ind; intros p h src b r Hc Ht.
  - destruct p; discriminate.
  - rewrite captures_when_closed_snoc in Hc. apply andb_true_iff in Hc.
    destruct Hc as [Hc He].
    destruct r as [|e' r' _] using rev_ind.
    + apply app_inj_tail in Ht. destruct Ht as [-> ->]. cbn in He.
      destruct (open_handles p); [reflexivity|discriminate].
    + rewrite app_comm_cons, app_assoc in Ht. apply app_inj_tail in Ht.
      destruct Ht as [-> _]. eapply IH; [exact Hc|reflexivity].
Qed.



(** ** [stop_streaming] *)

Lemma returned_quiescent c k :
  Inv c -> main c = M_sp_returned k -> quiescent c.
Proof.
  intros (_ & _ & _ & _ & Ht & _) Hm. unfold quiescent.
  destruct c as [[self|] pc t]; cbn in *; subst pc.
  - exists self. destruct Ht as (Hf & Hr & Ht).
    specialize (Hf eq_refl). specialize (Hr eq_refl).
    assert (Hq : isRunning self = false /\ open_handles t = []).
    { unfold isRunning. destruct (thread self).
      - tauto.
      - destruct Ht as (Hp & _). discriminate.
      - tauto.
      - contradiction. }
    destruct Hq as [Hq Ho].
    repeat split; try assumption.
    + unfold session_state. unfold isRunning in Hq.
      destruct (thread self); try reflexivity; try discriminate; now rewrite Hf.
    + intros rds. apply idle_worker_stays. exact Hq.
  - destruct Ht; discriminate.
Qed.

Lemma work_countdown rd self t :
  running self = false ->
  (isRunning self = true -> cap self <> None) ->
  running (fst (worker_step rd self t)) = false /\
  (isRunning (fst (worker_step rd self t)) = true ->
   cap (fst (worker_step rd self t)) <> None) /\
  remaining (thread (fst (worker_step rd self t))) <= pred (remaining (thread self)).
Proof.
  destruct self as [r cp src q]. cbn. intros -> Hc.
  destruct q as [|w| |]; [| destruct w; destruct cp, rd |..]; cbn in *;
    repeat split; try lia; try discriminate; try congruence;
    try (exfalso; now apply Hc).
Qed.

Lemma worker_winds_down rds : forall c self,
  camera_thread c = Some self ->
  running self = false ->
  (isRunning self = true -> cap self <> None) ->
  exists self',
    camera_thread (exec (map Work rds) c) = Some self' /\
    main (exec (map Work rds) c) = main c /\
    running self' = false /\
    (isRunning self' = true -> cap self' <> None) /\
    remaining (thread self') <= remaining (thread self) - length rds.
Proof.
  induction rds as [|rd rds IH]; intros c self Hc Hr Hcap.
  - exists self. cbn. repeat split; try assumption. lia.
  - cbn [map exec fold_left]. fold (exec (map Work rds) (step c (Work rd))).
    destruct (work_countdown rd self (hist c) Hr Hcap) as (R1 & R2 & R3).
    destruct (IH (step c (Work rd)) (fst (worker_step rd self (hist c)))) as
      (self' & E1 & E2 & E3 & E4 & E5); try assumption.
    { cbn [step]. rewrite Hc. now destruct (worker_step rd self (hist c)). }
    exists self'. repeat split; try assumption.
    + rewrite E2. cbn [step]. rewrite Hc. now destruct (worker_step rd self (hist c)).
    + cbn [length]. lia.
Qed.

Lemma remaining_bound q : remaining q <= 7.
Proof. destruct q as [|w| |]; [|destruct w|..]; cbn; lia. Qed.

Lemma remaining_zero self : remaining (thread self) = 0 -> isRunning self = false.
Proof.
  unfold isRunning. destruct (thread self) as [|w| |]; try reflexivity.
  destruct w; discriminate.
Qed.

Lemma wait_returns a c k self :
  camera_thread c = Some self -> main c = M_sp_wait k -> isRunning self = false ->
  exists n, n <= 4 /\ main (exec (repeat (Main a) n) c) = M_sp_returned k.
Proof.
  destruct c as [ct pc t]. cbn. intros -> -> Hr.
  destruct (cap self) as [h|] eqn:Ecap.
  - exists 4. split; [lia|]. cbn. rewrite Hr. cbn. rewrite Ecap. cbn. rewrite Ecap. reflexivity.
  - exists 2. split; [lia|]. cbn. rewrite Hr. cbn. rewrite Ecap. reflexivity.
Qed.

Lemma reachable_thread_has_cap ks self :
  camera_thread (exec ks init) = Some self ->
  isRunning self = true -> cap self <> None.
Proof.
  intros Hc Hr. destruct (reachable_Inv ks) as (_ & _ & _ & _ & Ht & _).
  rewrite Hc in Ht. destruct Ht as (_ & _ & Ht). unfold isRunning in Hr.
  destruct (thread self); try discriminate.
  destruct Ht as (_ & _ & Ht). destruct (cap self); [discriminate|contradiction].
Qed.

(** C4: when [stop_streaming] is entered on a thread object in any
    reachable state, it returns once the worker has been scheduled for seven
    statements (at most the rest of one turn of the loop and its exit)
    whatever the reads yield; and whenever [stop_streaming] has returned,
    under any interleaving, the loop is not running, the flag is cleared,
    the thread object holds no capture, no capture is open, the session is
    Idle, and the worker emits nothing further however often it is
    scheduled. *)
Theorem stop_streaming_ends_the_session :
  forall (ks : list tick) (k : caller) (self : CameraThread)
         (a : cv_answers) (rds : list (option frame)),
    let c := exec ks init in
    main c = M_sp_set_flag k ->
    camera_thread c = Some self ->
    7 <= length rds ->
    (exists n, n <= 4 /\
       main (exec (Main a :: map Work rds ++ repeat (Main a) n) c) = M_sp_returned k) /\
    (forall (ks' : list tick) (k' : caller),
        main (exec ks' c) = M_sp_returned k' -> quiescent (exec ks' c)).
Proof.
  intros ks k self a rds c Hm Hc Hl. split.
  - pose proof (reachable_thread_has_cap ks self Hc) as Hcap.
    set (c1 := step c (Main a)).
    assert (H1 : camera_thread c1 = Some (with_running false self) /\ main c1 = M_sp_wait k).
    { unfold c1. destruct c as [ct pc t]. cbn in *. subst. cbn. split; reflexivity. }
    destruct H1 as [H1 H2].
    destruct (worker_winds_down rds c1 (with_running false self) H1 eq_refl Hcap)
      as (self' & E1 & E2 & E3 & E4 & E5).
    assert (Hq : isRunning self' = false).
    { apply remaining_zero. pose proof (remaining_bound (thread (with_running false self))). lia. }
    destruct (wait_returns a (exec (map Work rds) c1) k self' E1) as (n & Hn & Hret);
      [congruence|assumption|].
    exists n. split; [assumption|].
    change (Main a :: map Work rds ++ repeat (Main a) n)
      with ([Main a] ++ map Work rds ++ repeat (Main a) n).
    rewrite !exec_app. exact Hret.
  - intros ks' k' Hr. eapply returned_quiescent; [|exact Hr].
    apply exec_Inv, reachable_Inv.
Qed.

Lemma stop_streaming_ends_the_session_witness :
  let f1 := {| shape_h := 1; shape_w := 1; shape_ch := BGR; data := [10; 20; 30]%N |} in
  let yes := {| opens := true; accepts_width := true;
                accepts_height := true; accepts_fps := true |} in
  let ks := [Call (Call_start_stream (Device 0)); Main yes; Main yes;
             Work (Some f1); Work (Some f1); Call Call_stop_stream; Main yes] in
  let self := {| running := true; cap := Some 0; source := Device 0;
                 thread := Active (W_emit_raw f1) |} in
  let rds := repeat (@None frame) 7 in
  let c := exec ks init in
  main c = M_sp_set_flag From_stop_stream /\
  camera_thread c = Some self /\
  7 <= length rds /\
  (exists n, n <= 4 /\
     main (exec (Main yes :: map Work rds ++ repeat (Main yes) n) c) =
       M_sp_returned From_stop_stream) /\
  (forall (ks' : list tick) (k' : caller),
      main (exec ks' c) = M_sp_returned k' -> quiescent (exec ks' c)).
Proof.
  intros f1 yes ks self rds c.
  split; [reflexivity|]. split; [reflexivity|]. split; [apply le_n|].
  exact (stop_streaming_ends_the_session ks From_stop_stream self yes rds
           eq_refl eq_refl (le_n 7)).
Defined.

(** ** Every capture is released once *)

Lemma released_stays h ks c :
  In AtLoopExit (release_sites h (hist c)) ->
  In AtLoopExit (release_sites h (hist (exec ks c))).
Proof.
  intros H. destruct (exec_extends ks c) as [s ->].
  rewrite release_sites_app. apply in_or_app. now left.
Qed.

Lemma waiting_loop_releases h k : forall ks c,
  In AtLoopExit (release_sites h (hist c)) \/
  (exists r src w,
      camera_thread c = Some {| running := false; cap := Some h; source := src;
                                thread := Active w |} /\
      main c = M_sp_wait k /\ r = false /\
      (w = W_clear -> In AtLoopExit (release_sites h (hist c))) /\
      pred (remaining (Active w)) <= works ks) ->
  In AtLoopExit (release_sites h (hist (exec ks c))).
Proof.
  induction ks as [|tk ks IH]; intros c [H|(r & src & w & Hc & Hm & _ & Hw & Hn)].
  - exact H.
  - cbn in *. destruct w; cbn in Hn; try lia. now apply Hw.
  - now apply released_stays.
  - cbn [exec fold_left]. fold (exec ks (step c tk)). apply IH.
    destruct c as [ct pc t]. cbn in Hc, Hm, Hw. subst ct pc.
    destruct tk as [cl|a|rd].
    + right. exists false, src, w. cbn. repeat split; try assumption.
    + right. exists false, src, w. cbn. repeat split; try assumption.
    + unfold works in Hn. cbn [filter length] in Hn. fold (works ks) in Hn.
      destruct w; cbn in Hn |- *.
      all: try (right; eexists false, src, _; cbn;
                split; [reflexivity|]; split; [reflexivity|]; split; [reflexivity|];
                split; [discriminate|cbn; lia]).
      * destruct rd; right; eexists false, src, _; cbn;
          (split; [reflexivity|]; split; [reflexivity|]; split; [reflexivity|];
           split; [discriminate|cbn; lia]).
      * left. unfold release_sites. rewrite flat_map_app. apply in_or_app. right. cbn.
        rewrite Nat.eqb_refl. now left.
      * left. now apply Hw.
Qed.

Lemma failing_loop_releases h : forall ks c,
  In AtLoopExit (release_sites h (hist c)) \/
  (exists r src w,
      camera_thread c = Some {| running := r; cap := Some h; source := src;
                                thread := Active w |} /\
      post_wait (main c) = false /\ is_start_new (main c) = false /\
      (w = W_clear -> In AtLoopExit (release_sites h (hist c))) /\
      reads_fail ks = true /\
      before_release w <= works ks) ->
  In AtLoopExit (release_sites h (hist (exec ks c))).
Proof.
  induction ks as [|tk ks IH]; intros c [H|(r & src & w & Hc & Hp & Hs & Hw & Hf & Hn)].
  - exact H.
  - cbn in *. destruct w; cbn in Hn; try lia. now apply Hw.
  - now apply released_stays.
  - cbn [exec fold_left]. fold (exec ks (step c tk)). apply IH.
    cbn [reads_fail forallb] in Hf. apply andb_prop in Hf. destruct Hf as [Hf1 Hf].
    fold (reads_fail ks) in Hf.
    destruct c as [ct pc t]. cbn in Hc, Hp, Hs, Hw. subst ct.
    destruct tk as [cl|a|rd].
    + right. destruct pc; try discriminate; cbn.
      1: destruct cl; cbn.
      all: exists r, src, w; cbn; repeat split; assumption.
    + destruct pc; try discriminate; cbn.
      all: right; eexists _, src, w; cbn;
        (split; [reflexivity|]); repeat split; assumption.
    + destruct rd as [f|]; [discriminate|].
      unfold works in Hn. cbn [filter length] in Hn. fold (works ks) in Hn.
      destruct w; cbn in Hn |- *.
      all: try (right; eexists r, src, _; cbn;
                split; [reflexivity|]; repeat split;
                solve [assumption | discriminate | cbn; lia]).
      * destruct r; cbn; right; eexists _, src, _; cbn;
          (split; [reflexivity|]); repeat split;
          solve [assumption | discriminate | cbn; lia].
      * left. unfold release_sites. rewrite flat_map_app. apply in_or_app. right. cbn.
        rewrite Nat.eqb_refl. now left.
      * left. now apply Hw.
Qed.

Lemma Inv_releases c h :
  Inv c ->
  let t := hist c in
  (release_sites h t = [] \/ release_sites h t = [AtLoopExit] \/
   release_sites h t = [AtStop]) /\
  (if opened_ok h t then
     if existsb (Nat.eqb h) (open_handles t)
     then release_sites h t = []
     else release_sites h t = [AtLoopExit]
   else release_sites h t = [] \/ release_sites h t = [AtStop]) /\
  (if loop_running c then True else open_handles t = []).
Proof.
  intros (Hw & _ & _ & Hs & Ht & _) t. fold t in Hw, Hs, Ht.
  assert (Hl : if loop_running c then True else open_handles t = []).
  { unfold loop_running, isRunning. destruct (camera_thread c) as [self|]; [|tauto].
    destruct Ht as (_ & _ & Ht). destruct (thread self); tauto. }
  assert (Hm : if opened_ok h t then
                 if existsb (Nat.eqb h) (open_handles t)
                 then release_sites h t = []
                 else release_sites h t = [AtLoopExit]
               else release_sites h t = [] \/ release_sites h t = [AtStop]).
  { destruct (Nat.lt_ge_cases h (next_handle t)) as [Hlt|Hge].
    2:{ destruct (well_named_fresh t h Hw Hge) as (-> & -> & _). now left. }
    specialize (Hs h Hlt). unfold held_by, settled in Hs.
    destruct (camera_thread c) as [self|].
    - destruct Ht as (_ & _ & Ht).
      destruct (cap self) as [h0|] eqn:Ecap.
      + destruct (Nat.eq_dec h0 h) as [->|Hne].
        * clear Hs. destruct (thread self) as [|w| |].
          -- destruct Ht as (_ & _ & _ & -> & Hr). destruct (is_clear (main c)); tauto.
          -- destruct Ht as (_ & _ & _ & -> & Hr). destruct (is_W_clear w).
             ++ destruct Hr as [-> ->]. reflexivity.
             ++ destruct Hr as [-> ->]. cbn. now rewrite Nat.eqb_refl.
          -- destruct Ht; discriminate.
          -- contradiction.
        * assert (Hs' := Hs ltac:(congruence)). clear Hs.
          destruct (opened_ok h t); [|exact Hs'].
          replace (existsb (Nat.eqb h) (open_handles t)) with false; [exact Hs'|].
          destruct (thread self) as [|w| |].
          -- destruct Ht as (-> & _). reflexivity.
          -- destruct Ht as (_ & _ & _ & _ & Hr). destruct (is_W_clear w).
             ++ destruct Hr as [-> _]. reflexivity.
             ++ destruct Hr as [-> _]. cbn. symmetry. rewrite orb_false_r.
                apply Nat.eqb_neq. congruence.
          -- destruct Ht as (_ & ->). reflexivity.
          -- contradiction.
      + assert (Hs' := Hs ltac:(congruence)). clear Hs.
        destruct (opened_ok h t); [|exact Hs'].
        replace (existsb (Nat.eqb h) (open_handles t)) with false; [exact Hs'|].
        destruct (thread self) as [|w| |].
        * destruct Ht as (-> & _). reflexivity.
        * destruct Ht as (_ & _ & []).
        * destruct Ht as (_ & ->). reflexivity.
        * contradiction.
    - destruct Ht as [Ho _]. rewrite Ho. cbn.
      assert (Hs' := Hs ltac:(tauto)). exact Hs'. }
  split; [|split; assumption].
  destruct (opened_ok h t); [destruct (existsb _ _)|]; tauto.
Qed.

(** A reachable loop that holds [h] has released it if it stands at line 73. *)
Lemma at_clear_released ks self h :
  camera_thread (exec ks init) = Some self ->
  cap self = Some h ->
  thread self = Active W_clear ->
  In AtLoopExit (release_sites h (hist (exec ks init))).
Proof.
  intros Hc Hcap Hw. destruct (reachable_Inv ks) as (_ & _ & _ & _ & Ht & _).
  rewrite Hc in Ht. destruct Ht as (_ & _ & Ht). rewrite Hw, Hcap in Ht.
  destruct Ht as (_ & _ & _ & _ & _ & ->). now left.
Qed.

(** C5: in every reachable state [release()] has been called on any
    capture at most once, at the exit of [run] or in [stop_streaming], never
    at both.  A capture that opened is either still open, with no release,
    or was released once, by the exit of [run]; [stop_streaming] only ever
    releases a capture that had not opened.  When no loop is running no
    capture is open.  And the capture a running loop holds does get
    released: once [stop_streaming] waits for the loop, or when every
    further [read()] fails, then under any interleaving in which the worker
    executes seven statements the capture has been released, exactly once
    and by the exit of [run], and it stays so whatever follows. *)
Theorem each_capture_released_once :
  forall (ks : list tick) (h : handle),
    let c := exec ks init in
    let t := hist c in
    (release_sites h t = [] \/ release_sites h t = [AtLoopExit] \/
     release_sites h t = [AtStop]) /\
    (if opened_ok h t then
       if existsb (Nat.eqb h) (open_handles t)
       then release_sites h t = []
       else release_sites h t = [AtLoopExit]
     else release_sites h t = [] \/ release_sites h t = [AtStop]) /\
    (if loop_running c then True else open_handles t = []) /\
    (forall (self : CameraThread) (ks' : list tick),
        camera_thread c = Some self ->
        cap self = Some h ->
        isRunning self = true ->
        (exists k, main c = M_sp_wait k) \/ reads_fail ks' = true ->
        7 <= works ks' ->
        release_sites h (hist (exec ks' c)) = [AtLoopExit] /\
        opened_ok h (hist (exec ks' c)) = true /\
        existsb (Nat.eqb h) (open_handles (hist (exec ks' c))) = false).
Proof.
  intros ks h c t.
  destruct (Inv_releases c h (reachable_Inv ks)) as (A1 & A2 & A3).
  split; [exact A1|]. split; [exact A2|]. split; [exact A3|].
  intros self ks' Hc Hcap Hrun Hwhy Hn.
  assert (Hin : In AtLoopExit (release_sites h (hist (exec ks' c)))).
  { destruct (reachable_Inv ks) as (_ & _ & _ & _ & Ht & _). fold c in Ht.
    rewrite Hc in Ht. destruct Ht as (Hflag & _ & Ht).
    pose proof (at_clear_released ks self h Hc Hcap) as Hclr.
    destruct self as [r cp src q]. cbn in Hcap, Hrun, Ht, Hflag, Hclr. subst cp.
    unfold isRunning in Hrun. cbn in Hrun.
    destruct q as [|w| |]; try discriminate.
    destruct Ht as (Hp & Hs & _).
    destruct Hwhy as [[k Hk]|Hf].
    - apply (waiting_loop_releases h k). right. exists false, src, w.
      rewrite Hk in Hflag. rewrite (Hflag eq_refl) in Hc.
      split; [exact Hc|]. split; [exact Hk|]. split; [reflexivity|].
      split; [intros ->; now apply Hclr|].
      pose proof (remaining_bound (Active w)). lia.
    - apply (failing_loop_releases h). right. exists r, src, w.
      split; [exact Hc|]. split; [exact Hp|]. split; [exact Hs|].
      split; [intros ->; now apply Hclr|]. split; [exact Hf|].
      destruct w; cbn; lia. }
  assert (Hinv : Inv (exec ks' c)) by apply exec_Inv, reachable_Inv.
  destruct (Inv_releases (exec ks' c) h Hinv) as (B1 & B2 & _).
  assert (E : release_sites h (hist (exec ks' c)) = [AtLoopExit]).
  { destruct B1 as [B|[B|B]]; rewrite B in Hin; cbn in Hin;
      [contradiction|exact B|destruct Hin as [Hin|[]]; discriminate]. }
  split; [exact E|].
  rewrite E in B2.
  destruct (opened_ok h (hist (exec ks' c))).
  - split; [reflexivity|].
    destruct (existsb (Nat.eqb h) (open_handles (hist (exec ks' c)))); [discriminate|reflexivity].
  - destruct B2; discriminate.
Qed.

Lemma each_capture_released_once_witness :
  let f1 := {| shape_h := 1; shape_w := 1; shape_ch := BGR; data := [10; 20; 30]%N |} in
  let yes := {| opens := true; accepts_width := true;
                accepts_height := true; accepts_fps := true |} in
  let ks := [Call (Call_start_stream (Device 0)); Main yes; Main yes;
             Work (Some f1); Work (Some f1)] in
  let self := {| running := true; cap := Some 0; source := Device 0;
                 thread := Active (W_emit_raw f1) |} in
  let ks' := [Work None; Call Call_stop_stream; Work None; Main yes; Work None;
              Work None; Work None; Main yes; Work None; Work None] in
  let c := exec ks init in
  camera_thread c = Some self /\
  cap self = Some 0 /\
  isRunning self = true /\
  reads_fail ks' = true /\
  7 <= works ks' /\
  release_sites 0 (hist (exec ks' c)) = [AtLoopExit] /\
  opened_ok 0 (hist (exec ks' c)) = true /\
  existsb (Nat.eqb 0) (open_handles (hist (exec ks' c))) = false.
Proof.
  intros f1 yes ks self ks' c.
  split; [reflexivity|]. split; [reflexivity|]. split; [reflexivity|].
  split; [reflexivity|]. split; [vm_compute; lia|].
  apply (proj2 (proj2 (proj2 (each_capture_released_once ks 0))) self ks').
  - reflexivity.
  - reflexivity.
  - reflexivity.
  - right. reflexivity.
  - vm_compute. lia.
Defined.

(** ** [stop_streaming] on a session that is not running *)

(** C8, as stated, fails: a session whose loop ended on a read failure is
    not running, yet [stop_streaming] is no no-op on it: it clears the flag
    the loop left set, and the session goes from Failed to Idle. *)
Lemma stop_streaming_resets_a_failed_session :
  let yes := {| opens := true; accepts_width := true;
                accepts_height := true; accepts_fps := true |} in
  let c := exec ([Call (Call_start_stream (Device 0)); Main yes; Main yes] ++
                 worker_schedule []) init in
  let failed := {| running := true; cap := None; source := Device 0;
                   thread := Finished |} in
  camera_thread c = Some failed /\
  main c = M_idle /\
  isRunning failed = false /\
  session_state failed = Failed /\
  camera_thread (stop_call yes c) = Some (with_running false failed) /\
  session_state (with_running false failed) = Idle /\
  camera_thread (stop_call yes c) <> camera_thread c.
Proof. repeat split. discriminate. Qed.

(** C8, amended: called on a session in which no loop is running,
    [stop_streaming] returns without waiting, emits no signal, and leaves
    the session Idle with the flag cleared and no capture held; the only
    call it makes is the release of a capture object the session still
    held.  Done twice it has the effect of once.  It leaves the session's
    state as it was exactly when that state was Idle: a session whose loop
    ended on a read failure was Failed and is Idle afterwards.  When the
    flag was already cleared nothing but the held capture object changes,
    and [stop_stream] on a session that is not running changes nothing at
    all. *)
Theorem stop_streaming_when_not_running :
  forall (a : cv_answers) (c : config) (self : CameraThread),
    camera_thread c = Some self ->
    main c = M_idle ->
    isRunning self = false ->
    let c1 := stop_call a c in
    let self1 := with_cap None (with_running false self) in
    main c1 = M_idle /\
    camera_thread c1 = Some self1 /\
    hist c1 = hist c ++ match cap self with
                        | Some h => [CapRelease h AtStop]
                        | None => []
                        end /\
    signals (hist c1) = signals (hist c) /\
    session_state self1 = Idle /\
    (session_state self = Idle \/ session_state self = Failed) /\
    (session_state self1 = session_state self <-> session_state self = Idle) /\
    (session_state self = Failed <->
     running self = true /\ thread self <> NotStarted) /\
    (running self = false -> self1 = with_cap None self) /\
    stop_call a c1 = c1 /\
    stop_call a (stop_call a c) = stop_call a c /\
    exec [Call Call_stop_stream; Main a] c = c.
Proof.
  intros a [ct pc t] [r cp src q]. cbn. intros -> -> Hq.
  unfold isRunning in Hq. cbn in Hq.
  destruct q as [|w| |]; try discriminate; destruct cp as [h|], r; cbn;
    rewrite ?signals_app, ?app_nil_r; cbn; rewrite ?app_nil_r;
    repeat match goal with
           | |- _ /\ _ => split
           | |- _ <-> _ => split
           end;
    try reflexivity; try discriminate; try tauto; try (intros; discriminate);
    try (intros [? ?]; congruence); try (now left); try (now right);
    try (intros _; split; [reflexivity|discriminate]).
Qed.

Lemma stop_streaming_when_not_running_witness :
  let yes := {| opens := true; accepts_width := true;
                accepts_height := true; accepts_fps := true |} in
  let c := exec ([Call (Call_start_stream (Device 0)); Main yes; Main yes] ++
                 worker_schedule []) init in
  let self := {| running := true; cap := None; source := Device 0;
                 thread := Finished |} in
  camera_thread c = Some self /\
  main c = M_idle /\
  isRunning self = false /\
  let c1 := stop_call yes c in
  let self1 := with_cap None (with_running false self) in
  main c1 = M_idle /\
  camera_thread c1 = Some self1 /\
  hist c1 = hist c ++ match cap self with
                      | Some h => [CapRelease h AtStop]
                      | None => []
                      end /\
  signals (hist c1) = signals (hist c) /\
  session_state self1 = Idle /\
  (session_state self = Idle \/ session_state self = Failed) /\
  (session_state self1 = session_state self <-> session_state self = Idle) /\
  (session_state self = Failed <->
   running self = true /\ thread self <> NotStarted) /\
  (running self = false -> self1 = with_cap None self) /\
  stop_call yes c1 = c1 /\
  stop_call yes (stop_call yes c) = stop_call yes c /\
  exec [Call Call_stop_stream; Main yes] c = c.
Proof.
  intros yes c self.
  split; [reflexivity|]. split; [reflexivity|]. split; [reflexivity|].
  exact (stop_streaming_when_not_running yes c self eq_refl eq_refl eq_refl).
Defined.

(** In a state the pipeline can reach, the capture an idle session still
    holds is one that never opened. *)
Lemma idle_capture_never_opened ks self h :
  camera_thread (exec ks init) = Some self ->
  isRunning self = false ->
  cap self = Some h ->
  opened_ok h (hist (exec ks init)) = false /\ open_handles (hist (exec ks init)) = [].
Proof.
  intros Hc Hq Hcap. destruct (reachable_Inv ks) as (_ & _ & _ & _ & Ht & _).
  rewrite Hc in Ht. destruct Ht as (_ & _ & Ht). unfold isRunning in Hq.
  destruct (thread self); try discriminate.
  - rewrite Hcap in Ht. tauto.
  - destruct Ht; congruence.
  - contradiction.
Qed.

(** * The rest of the pipeline and of the window *)

Lemma frame_notifications_expected t :
  frame_notifications (expected_signals t) = frames_read t.
Proof.
  unfold frame_notifications, expected_signals, frames_read.
  induction t as [|e t IH]; [reflexivity|].
  destruct e as [h src [|]| | h [f|] | | | | |]; cbn in *; now rewrite ?IH.
Qed.

Lemma image_notifications_expected t :
  image_notifications (expected_signals t) = map qt_image (frames_read t).
Proof.
  unfold image_notifications, expected_signals, frames_read.
  induction t as [|e t IH]; [reflexivity|].
  destruct e as [h src [|]| | h [f|] | | | | |]; cbn in *; now rewrite ?IH.
Qed.

Lemma error_notifications_expected t :
  error_notifications (expected_signals t) = failures t.
Proof.
  unfold error_notifications, expected_signals, failures.
  induction t as [|e t IH]; [reflexivity|].
  destruct e as [h src [|]| | h [f|] | | | | |]; cbn in *; now rewrite ?IH.
Qed.

Lemma image_notifications_signals t :
  image_notifications (signals t) = image_notifications t.
Proof.
  unfold image_notifications, signals.
  induction t as [|e t IH]; [reflexivity|].
  destruct e; cbn in *; try assumption; now rewrite IH.
Qed.

Lemma image_notifications_app t s :
  image_notifications (t ++ s) = image_notifications t ++ image_notifications s.
Proof. apply flat_map_app. Qed.

(** X1: under no interleaving of the calls, the GUI thread and the worker
    does [run] call [read()] or [release()] on a [self.cap] that is
    [None]: the worker thread never dies on an exception of its own. *)
Theorem run_never_crashes :
  forall ks : list tick, has_crashed (exec ks init) = false.
Proof.
  intros ks. destruct (reachable_Inv ks) as (_ & _ & _ & _ & Ht & _).
  unfold has_crashed. destruct (camera_thread (exec ks init)) as [self|]; [|reflexivity].
  destruct Ht as (_ & _ & Ht). destruct (thread self); try reflexivity. contradiction.
Qed.

Lemma deliveries_eq ks :
  let c := exec ks init in
  let t := hist c in
  frames_read t = frame_notifications t ++ frame_notifications (pending_of c) /\
  map qt_image (frames_read t) =
    image_notifications t ++ image_notifications (pending_of c) /\
  failures t = error_notifications t ++ error_notifications (pending_of c).
Proof.
  intros c t. destruct (reachable_Inv ks) as (_ & _ & _ & _ & _ & Hs).
  fold c in Hs. fold t in Hs. repeat split.
  - rewrite <- frame_notifications_expected, <- Hs, frame_notifications_app.
    now rewrite frame_notifications_signals.
  - rewrite <- image_notifications_expected, <- Hs, image_notifications_app.
    now rewrite image_notifications_signals.
  - rewrite <- error_notifications_expected, <- Hs, error_notifications_app.
    now rewrite error_notifications_signals.
Qed.

(** X2: at every instant and across sessions, the frames emitted on
    [frame_ready_raw] are the frames read so far, in read order, short of
    the one the worker is about to emit; the images on [frame_ready] are
    their conversions; the messages on [error_occurred] are those of the
    failed opens and failed reads, in order.  The worker owes at most two
    signals, and when no loop runs a signal was emitted for everything
    that was read. *)
Theorem deliveries_follow_reads :
  forall ks : list tick,
    let c := exec ks init in
    let t := hist c in
    frames_read t = frame_notifications t ++ frame_notifications (pending_of c) /\
    map qt_image (frames_read t) =
      image_notifications t ++ image_notifications (pending_of c) /\
    failures t = error_notifications t ++ error_notifications (pending_of c) /\
    (if loop_running c
     then length (pending_of c) <= 2
     else frame_notifications t = frames_read t /\
          image_notifications t = map qt_image (frames_read t) /\
          error_notifications t = failures t).
Proof.
  intros ks c t. destruct (deliveries_eq ks) as (E1 & E2 & E3).
  fold c in E1, E2, E3. fold t in E1, E2, E3.
  repeat split; try assumption.
  destruct (loop_running c) eqn:El.
  - unfold pending_of. destruct (camera_thread c) as [self|]; [|cbn; lia].
    destruct (thread self) as [|w| |]; cbn; try lia. destruct w; cbn; lia.
  - rewrite (pending_idle c El) in E1, E2, E3. cbn in *.
    rewrite app_nil_r in *. repeat split; congruence.
Qed.

(** ** The image handed to [frame_ready] *)

Lemma bgr2rgb_length : forall n d, length d = 3 * n -> length (bgr2rgb d) = 3 * n.
Proof.
  induction n as [|n IH]; intros d Hd.
  - destruct d; [reflexivity|discriminate].
  - destruct d as [|b [|g [|r rest]]]; cbn in Hd; try lia.
    cbn [bgr2rgb length]. rewrite (IH rest) by lia. lia.
Qed.

Lemma bgra2rgb_length : forall n d, length d = 4 * n -> length (bgra2rgb d) = 3 * n.
Proof.
  induction n as [|n IH]; intros d Hd.
  - destruct d; [reflexivity|discriminate].
  - destruct d as [|b [|g [|r [|x rest]]]]; cbn in Hd; try lia.
    cbn [bgra2rgb length]. rewrite (IH rest) by lia. lia.
Qed.

Lemma bgr2rgb_pixel : forall i d,
  3 * i + 3 <= length d ->
  nth_error (bgr2rgb d) (3 * i) = nth_error d (3 * i + 2) /\
  nth_error (bgr2rgb d) (3 * i + 1) = nth_error d (3 * i + 1) /\
  nth_error (bgr2rgb d) (3 * i + 2) = nth_error d (3 * i).
Proof.
  induction i as [|i IH]; intros d Hd;
    destruct d as [|b [|g [|r rest]]]; cbn [length] in Hd; try lia.
  - repeat split.
  - replace (3 * S i) with (S (S (S (3 * i)))) by lia.
    cbn [bgr2rgb Nat.add nth_error]. apply IH. lia.
Qed.

Lemma bgra2rgb_pixel : forall i d,
  4 * i + 4 <= length d ->
  nth_error (bgra2rgb d) (3 * i) = nth_error d (4 * i + 2) /\
  nth_error (bgra2rgb d) (3 * i + 1) = nth_error d (4 * i + 1) /\
  nth_error (bgra2rgb d) (3 * i + 2) = nth_error d (4 * i).
Proof.
  induction i as [|i IH]; intros d Hd;
    destruct d as [|b [|g [|r [|x rest]]]]; cbn [length] in Hd; try lia.
  - repeat split.
  - replace (3 * S i) with (S (S (S (3 * i)))) by lia.
    replace (4 * S i) with (S (S (S (S (4 * i))))) by lia.
    cbn [bgra2rgb Nat.add nth_error]. apply IH. lia.
Qed.

(** X7: for a frame whose data fill its shape, of 3 or of 4 channels, the
    image [run] hands to [frame_ready] has the frame's height and width and
    three bytes per pixel; its buffer holds exactly height times
    [bytes_per_line] bytes, which is what the [QImage] constructor reads;
    and the bytes of each pixel are the red, green and blue values of the
    frame's pixel at the same place, a fourth channel being dropped. *)
Theorem qt_image_buffer_fits :
  forall f : frame,
    length (data f) = shape_h f * shape_w f * channel_count (shape_ch f) ->
    let q := qt_image f in
    img_h q = shape_h f /\
    img_w q = shape_w f /\
    bytes_per_line q = 3 * shape_w f /\
    length (img_bytes q) = img_h q * bytes_per_line q /\
    forall i : nat,
      i < shape_h f * shape_w f ->
      let ch := channel_count (shape_ch f) in
      nth_error (img_bytes q) (3 * i) = nth_error (data f) (ch * i + 2) /\
      nth_error (img_bytes q) (3 * i + 1) = nth_error (data f) (ch * i + 1) /\
      nth_error (img_bytes q) (3 * i + 2) = nth_error (data f) (ch * i) /\
      nth_error (img_bytes q) (3 * i) <> None.
Proof.
  intros [h w ch d] Hd q. cbn [shape_h shape_w shape_ch data] in Hd |- *.
  split; [reflexivity|]. split; [reflexivity|]. split; [reflexivity|].
  assert (Hlen : length (img_bytes q) = 3 * (h * w)).
  { unfold q, qt_image, cvtColor_BGR2RGB. cbn [img_bytes data shape_ch].
    destruct ch; cbn [channel_count] in Hd.
    - apply bgr2rgb_length. lia.
    - apply bgra2rgb_length. lia. }
  split.
  { rewrite Hlen. cbn. lia. }
  intros i Hi.
  assert (Hsome : nth_error (img_bytes q) (3 * i) <> None).
  { apply nth_error_Some. rewrite Hlen. lia. }
  unfold q, qt_image, cvtColor_BGR2RGB in *. cbn [img_bytes data shape_ch] in *.
  destruct ch; cbn [channel_count] in *.
  - destruct (bgr2rgb_pixel i d ltac:(lia)) as (E1 & E2 & E3). tauto.
  - destruct (bgra2rgb_pixel i d ltac:(lia)) as (E1 & E2 & E3). tauto.
Qed.

Lemma qt_image_buffer_fits_witness :
  let f := {| shape_h := 1; shape_w := 2; shape_ch := BGRA;
              data := [1; 2; 3; 255; 4; 5; 6; 255]%N |} in
  length (data f) = shape_h f * shape_w f * channel_count (shape_ch f) /\
  qt_image f = {| img_bytes := [3; 2; 1; 6; 5; 4]%N; img_w := 2; img_h := 1;
                  bytes_per_line := 6 |} /\
  length (img_bytes (qt_image f)) = img_h (qt_image f) * bytes_per_line (qt_image f).
Proof.
  intros f. split; [reflexivity|]. split; [reflexivity|].
  exact (proj1 (proj2 (proj2 (proj2 (qt_image_buffer_fits f eq_refl))))).
Defined.

(** ** Reads *)

Lemma open_use_fold_fst t st :
  fst (fold_left open_use_step t st) = fold_left track t (fst st).
Proof.
  revert st. induction t as [|e t IH]; intros st; simpl; [reflexivity|].
  now rewrite IH.
Qed.

Lemma used_while_open_snoc t e :
  used_while_open (t ++ [e]) =
  used_while_open t && match uses e with
                       | Some h => existsb (Nat.eqb h) (open_handles t)
                       | None => true
                       end.
Proof.
  unfold used_while_open. rewrite fold_left_app. simpl.
  now rewrite open_use_fold_fst.
Qed.

Lemma reads_of_app h t s : reads_of h (t ++ s) = reads_of h t ++ reads_of h s.
Proof. apply flat_map_app. Qed.

Lemma reads_of_fresh t h : well_named t -> next_handle t <= h -> reads_of h t = [].
Proof.
  induction t as [|e t IH] using rev_ind; intros Hw Hh; [reflexivity|].
  apply well_named_snoc in Hw. destruct Hw as [Hw He].
  rewrite next_handle_snoc in Hh. rewrite reads_of_app, IH by (assumption || lia).
  destruct e; cbn in *; try reflexivity.
  apply Nat.ltb_lt in He.
  replace (h0 =? h) with false by (symmetry; apply Nat.eqb_neq; lia). reflexivity.
Qed.

#[local] Hint Rewrite used_while_open_snoc reads_of_app removelast_last : trace.

Ltac reads_goal :=
  autorewrite with trace; cbn;
  repeat match goal with
         | |- context [?a =? ?b] =>
             destruct (Nat.eqb_spec a b); subst; cbn; try congruence; try lia
         end;
  autorewrite with trace; rewrite ?forallb_app; cbn;
  repeat match goal with
         | H : open_handles ?t = _ |- context [open_handles ?t] => rewrite H; cbn
         | H : reads_of ?h ?t = _ |- context [reads_of ?h ?t] => rewrite H; cbn
         | H : used_while_open ?t = _ |- context [used_while_open ?t] => rewrite H; cbn
         | H : forallb is_frame (reads_of ?h ?t) = _
           |- context [forallb is_frame (reads_of ?h ?t)] => rewrite H; cbn
         end;
  autorewrite with trace;
  try solve [ reflexivity | assumption | tauto | congruence
            | match goal with H : forall h, _ = true |- _ => apply H end ].

Lemma Reads_work c rd : Inv c -> Reads c -> Reads (step c (Work rd)).
Proof.
  destruct c as [ct pc t]. intros HI HR.
  destruct ct as [self|]; [|exact HR].
  destruct self as [r cp src q].
  destruct q as [|w| |]; try exact HR.
  destruct HI as (Hw & _ & _ & _ & Ht & _).
  unfold Reads in *. norm. destruct HR as (HU & HA & HC).
  destruct Ht as (_ & _ & _ & _ & Ht).
  destruct cp as [h|]; [|contradiction].
  destruct Ht as (Hlt & Hok & Ho).
  destruct w; norm; [destruct r | destruct rd | ..]; norm;
    destruct Ho as [Ho Hrel];
    (split; [|split]); try intro h0; reads_goal.
Qed.

Lemma start_new_closed c src :
  Inv c -> main c = M_start_new src -> open_handles (hist c) = [].
Proof.
  intros (_ & _ & _ & _ & Ht & _) Hm.
  destruct (camera_thread c) as [self|]; [|tauto].
  destruct Ht as (_ & _ & Ht). rewrite Hm in Ht.
  destruct (thread self); try tauto.
  destruct Ht as (_ & Hs & _). discriminate.
Qed.

Lemma Reads_main c a : Inv c -> Reads c -> Reads (step c (Main a)).
Proof.
  destruct c as [ct pc t]. intros HI HR.
  pose proof (reads_of_fresh t (next_handle t) (proj1 HI) (le_n _)) as F0.
  destruct pc as [|src|src| |k|k|k|k|k|[src| |]].
  3: { pose proof (start_new_closed _ src HI eq_refl) as Ho. cbn [hist] in Ho.
       unfold step, main_step. cbn [main hist]. rewrite start_streaming_fresh.
       unfold Reads in *. cbn [hist camera_thread] in *.
       destruct HR as (HU & HA & _).
       destruct (opens a); cbn [hist camera_thread thread cap reading];
         (split; [|split]); try intro h0; reads_goal. }
  all: unfold Reads in *; norm; destruct HR as (HU & HA & HC);
    destruct ct as [[r cp src' q]|]; norm; [destruct q as [|w| |], cp|]; norm;
    (split; [|split]); try intro h0; reads_goal.
Qed.

Lemma Reads_step c k : Inv c -> Reads c -> Reads (step c k).
Proof.
  destruct k as [call|a|rd].
  - intros _ HR. destruct c as [ct pc t]. unfold Reads in *. cbn [step].
    unfold enter. cbn in *.
    destruct pc; try exact HR. destruct call; try exact HR.
    destruct ct; exact HR.
  - apply Reads_main.
  - apply Reads_work.
Qed.

Lemma Reads_exec ks : forall c, Inv c -> Reads c -> Reads (exec ks c).
Proof.
  induction ks as [|k ks IH]; intros c HI HR; [exact HR|].
  apply IH; [now apply step_Inv | now apply Reads_step].
Qed.

Lemma Reads_reachable ks : Reads (exec ks init).
Proof.
  apply Reads_exec; [apply init_Inv|].
  unfold Reads, init. cbn. repeat split.
Qed.

Lemma one_failure_at_most {A : Type} (f : A -> bool) (l : list A) :
  forallb f (removelast l) = true ->
  length (filter (fun x => negb (f x)) l) <= 1 /\
  (forall p x s, l = p ++ x :: s -> f x = false -> s = []).
Proof.
  induction l as [|x l IH] using rev_ind; intros H.
  - split; [cbn; lia|]. intros p x s E. destruct p; discriminate.
  - rewrite removelast_last in H. split.
    + rewrite filter_app, length_app.
      assert (E : filter (fun x => negb (f x)) l = []).
      { clear IH. induction l as [|y l IHl]; [reflexivity|]. cbn in *.
        apply andb_true_iff in H. destruct H as [-> H]. cbn. now apply IHl. }
      rewrite E. cbn. destruct (f x); cbn; lia.
    + intros p y s E Hy. destruct s as [|z s _] using rev_ind; [reflexivity|].
      exfalso. rewrite app_comm_cons, app_assoc in E. apply app_inj_tail in E.
      destruct E as [-> _]. rewrite forallb_app in H. cbn in H.
      rewrite Hy in H. rewrite andb_false_r in H. discriminate.
Qed.

(** X3: under any interleaving, every [cap.set] and every [cap.read] is
    called on a capture that is open at that instant: the loop never reads
    from a capture that was released or that did not open. *)
Theorem captures_used_only_while_open :
  forall ks : list tick, used_while_open (hist (exec ks init)) = true.
Proof. intros ks. apply (Reads_reachable ks). Qed.

(** X4: on each capture every read but the last yielded a frame, so a
    capture sees at most one failed read and is not read again after it. *)
Theorem reads_stop_at_first_failure :
  forall (ks : list tick) (h : handle),
    let rs := reads_of h (hist (exec ks init)) in
    forallb is_frame (removelast rs) = true /\
    length (filter (fun r => negb (is_frame r)) rs) <= 1.
Proof.
  intros ks h rs. destruct (Reads_reachable ks) as (_ & HA & _).
  split; [apply HA|]. apply one_failure_at_most, HA.
Qed.

(** X5: left alone on a source that yields the frames F1, ..., Fn and then
    fails, [run] terminates: it reads and emits each frame, emits the read
    error, releases the capture and clears [self.cap]; the flag
    [self.running] stays set, so the session ends Failed, not Idle. *)
Theorem loop_ends_failed :
  forall (fs : list frame) (src : source_identifier) (pc : mpc) (t : trace) (h : handle),
    let self := {| running := true; cap := Some h; source := src;
                   thread := Active W_head |} in
    let c := exec (worker_schedule fs)
                  {| camera_thread := Some self; main := pc; hist := t |} in
    camera_thread c =
      Some {| running := true; cap := None; source := src; thread := Finished |} /\
    main c = pc /\
    hist c = t ++ flat_map (fun f => [CapRead h (Some f); Emit_frame_ready_raw f;
                                      Emit_frame_ready (qt_image f)]) fs
               ++ [CapRead h None; Emit_error_occurred read_error_message;
                   CapRelease h AtLoopExit] /\
    session_state {| running := true; cap := None; source := src;
                     thread := Finished |} = Failed /\
    loop_running c = false.
Proof.
  intros fs src pc t h self c. unfold c, self.
  rewrite run_to_failure. repeat split.
Qed.

(** X6: [start_stream] called while a loop runs completes once the worker
    has been scheduled for seven statements: the old loop has exited, and
    the new loop runs on the requested source, on a capture constructed
    during the call, which is the only capture open. *)
Theorem start_stream_replaces_a_running_session :
  forall (ks : list tick) (src : source_identifier) (a : cv_answers)
         (rds : list (option frame)),
    let c := exec ks init in
    main c = M_idle ->
    loop_running c = true ->
    opens a = true ->
    7 <= length rds ->
    exists (n : nat) (h : handle),
      n <= 4 /\
      let c' := exec (Call (Call_start_stream src) :: Main a :: Main a ::
                      map Work rds ++ repeat (Main a) n ++ [Main a; Main a]) c in
      main c' = M_idle /\
      camera_thread c' =
        Some {| running := true; cap := Some h; source := src;
                thread := Active W_head |} /\
      open_handles (hist c') = [h] /\
      opened_ok h (hist c) = false.
Proof.
  intros ks src a rds c Hm Hl Ha Hr.
  unfold loop_running in Hl. destruct (camera_thread c) as [self|] eqn:Hc; [|discriminate].
  pose proof (reachable_thread_has_cap ks self Hc) as Hcap.
  set (c1 := exec [Call (Call_start_stream src); Main a; Main a] c).
  assert (H1 : camera_thread c1 = Some (with_running false self) /\
               main c1 = M_sp_wait (From_start_stream src)).
  { unfold c1. destruct c as [ct pc t]. cbn in Hm, Hc. subst ct pc.
    cbn. rewrite Hl. cbn. split; reflexivity. }
  destruct H1 as [H1 H2].
  destruct (worker_winds_down rds c1 (with_running false self) H1 eq_refl Hcap)
    as (self' & E1 & E2 & E3 & E4 & E5).
  assert (Hq : isRunning self' = false).
  { apply remaining_zero.
    pose proof (remaining_bound (thread (with_running false self))). lia. }
  destruct (wait_returns a (exec (map Work rds) c1) (From_start_stream src) self' E1)
    as (n & Hn & Hret); [congruence|assumption|].
  set (c3 := exec (repeat (Main a) n) (exec (map Work rds) c1)) in *.
  set (c' := exec (Call (Call_start_stream src) :: Main a :: Main a ::
                   map Work rds ++ repeat (Main a) n ++ [Main a; Main a]) c).
  assert (Ec : c' = exec [Main a; Main a] c3).
  { unfold c', c3, c1.
    change (Call (Call_start_stream src) :: Main a :: Main a ::
            map Work rds ++ repeat (Main a) n ++ [Main a; Main a])
      with ([Call (Call_start_stream src); Main a; Main a] ++
            map Work rds ++ repeat (Main a) n ++ [Main a; Main a]).
    now rewrite !exec_app. }
  assert (Ef : main c' = M_idle /\
               camera_thread c' =
                 Some {| running := true; cap := Some (next_handle (hist c3));
                         source := src; thread := Active W_head |}).
  { rewrite Ec. destruct c3 as [ct3 pc3 t3]. cbn in Hret. subst pc3.
    cbn [exec fold_left step main_step main hist camera_thread].
    rewrite start_streaming_fresh, Ha. split; reflexivity. }
  destruct Ef as [Ef1 Ef2].
  exists n, (next_handle (hist c3)). split; [assumption|]. fold c'.
  assert (HI : Inv c') by (unfold c'; apply exec_Inv, reachable_Inv).
  destruct HI as (_ & _ & _ & _ & Ht & _). rewrite Ef2 in Ht.
  destruct Ht as (_ & _ & _ & _ & _ & _ & Ho & _). cbn in Ho.
  repeat split; try assumption.
  (* the new capture did not exist before the call *)
  assert (Hle : next_handle (hist c) <= next_handle (hist c3)).
  { unfold c3, c1. rewrite <- !exec_app.
    destruct (exec_extends
                ([Call (Call_start_stream src); Main a; Main a] ++
                 map Work rds ++ repeat (Main a) n) c) as [s Hs].
    rewrite Hs, next_handle_app. lia. }
  destruct (reachable_Inv ks) as (Hw & _). fold c in Hw.
  apply (well_named_fresh (hist c) _ Hw Hle).
Qed.

Lemma start_stream_replaces_a_running_session_witness :
  let yes := {| opens := true; accepts_width := true;
                accepts_height := true; accepts_fps := true |} in
  let ks := [Call (Call_start_stream (Device 0)); Main yes; Main yes] in
  let rds := repeat (@None frame) 7 in
  let c := exec ks init in
  main c = M_idle /\
  loop_running c = true /\
  opens yes = true /\
  7 <= length rds /\
  exists (n : nat) (h : handle),
    n <= 4 /\
    let c' := exec (Call (Call_start_stream (Device 1)) :: Main yes :: Main yes ::
                    map Work rds ++ repeat (Main yes) n ++ [Main yes; Main yes]) c in
    main c' = M_idle /\
    camera_thread c' =
      Some {| running := true; cap := Some h; source := Device 1;
              thread := Active W_head |} /\
    open_handles (hist c') = [h] /\
    opened_ok h (hist c) = false.
Proof.
  intros yes ks rds c.
  split; [reflexivity|]. split; [reflexivity|]. split; [reflexivity|].
  split; [apply le_n|].
  exact (start_stream_replaces_a_running_session ks (Device 1) yes rds
           eq_refl eq_refl eq_refl (le_n 7)).
Defined.

Lemma split_no_sep sep s :
  (forall c, In c (list_ascii_of_string s) -> c <> sep) -> split sep s = [s].
Proof.
  induction s as [|c s IH]; intros H; [reflexivity|].
  cbn. destruct (Ascii.eqb_spec c sep) as [->|Hc].
  - exfalso. apply (H sep); [now left|reflexivity].
  - rewrite IH; [reflexivity|]. intros d Hd. apply H. now right.
Qed.

Lemma uint_no_space d c :
  In c (list_ascii_of_string (NilEmpty.string_of_uint d)) -> c <> " "%char.
Proof.
  induction d; cbn; intros H; try destruct H as [<-|H]; try discriminate;
    try contradiction; auto.
Qed.

Lemma str_no_space idx c :
  In c (list_ascii_of_string (str (Device idx))) -> c <> " "%char.
Proof.
  unfold str. destruct (Z.to_int idx) as [d|d]; cbn.
  - destruct d; cbn; intros H; try destruct H as [<-|H]; try discriminate;
      try contradiction; eauto using uint_no_space.
  - intros [<-|H]; [discriminate|].
    destruct d; cbn in H; try destruct H as [<-|H]; try discriminate;
      try contradiction; eauto using uint_no_space.
Qed.

Lemma decimal_int_str idx : decimal_int (str (Device idx)) = Some idx.
Proof.
  unfold decimal_int, str. rewrite NilZero.isi.
  - cbn. now rewrite DecimalZ.of_to.
  - destruct idx as [|p|p]; cbn; try discriminate.
    intros [= H]. now apply (DecimalPos.Unsigned.to_uint_nonnil p).
  - destruct idx as [|p|p]; cbn; try discriminate.
    intros [= H]. now apply (DecimalPos.Unsigned.to_uint_nonnil p).
Qed.

Lemma prefix_append (s r : string) : prefix s (s ++ r) = true.
Proof.
  induction s as [|c s IH]; cbn; [now destruct r|].
  destruct (ascii_dec c c); [assumption|congruence].
Qed.

Lemma split_word sep (w r : string) :
  (forall c, In c (list_ascii_of_string w) -> c <> sep) ->
  split sep (w ++ String sep r) = w :: split sep r.
Proof.
  induction w as [|c w IH]; intros H; cbn.
  - now rewrite Ascii.eqb_refl.
  - destruct (Ascii.eqb_spec c sep) as [->|Hc].
    + exfalso. apply (H sep); [now left|reflexivity].
    + rewrite IH; [reflexivity|]. intros d Hd. apply H. now right.
Qed.

Lemma label_reads_back (int : string -> option Z) (idx : Z) (url : string) :
  (forall z, int (str (Device z)) = Some z) ->
  get_camera_source int (camera_label idx) url = Some (Device idx).
Proof.
  intros Hint. unfold get_camera_source, camera_label.
  rewrite prefix_append.
  change ("Camera " ++ str (Device idx))%string
    with ("Camera" ++ String " " (str (Device idx)))%string.
  rewrite split_word.
  - rewrite (split_no_sep " " (str (Device idx))) by (intros c; apply str_no_space).
    cbn [nth_error]. now rewrite Hint.
  - cbn. intros c H. repeat (destruct H as [<-|H]; [discriminate|]). contradiction.
Qed.

(** X8: for every index, [get_camera_source] reads the label
    "Camera <index>" that the scan puts into the combo box back as that
    index, given that [int] inverts the decimal numeral [str] prints. *)
Theorem get_camera_source_of_label :
  forall (int : string -> option Z) (idx : Z) (url : string),
    (forall z, int (str (Device z)) = Some z) ->
    get_camera_source int (camera_label idx) url = Some (Device idx).
Proof. intros int idx url H. now apply label_reads_back. Qed.

Lemma get_camera_source_of_label_witness :
  (forall z, decimal_int (str (Device z)) = Some z) /\
  get_camera_source decimal_int (camera_label 7) "rtsp://cam" = Some (Device 7).
Proof.
  split; [exact decimal_int_str|].
  exact (get_camera_source_of_label decimal_int 7 "rtsp://cam" decimal_int_str).
Defined.


Lemma addItem_fold (l : list Z) : forall b,
  items (fold_left (fun b idx => addItem (camera_label idx) b) l b) =
    items b ++ map camera_label l /\
  currentIndex (fold_left (fun b idx => addItem (camera_label idx) b) l b) =
    match currentIndex b, l with
    | Some i, _ => Some i
    | None, _ :: _ => Some 0
    | None, [] => None
    end.
Proof.
  induction l as [|i l IH]; intros b; cbn [fold_left map].
  - rewrite app_nil_r. now destruct (currentIndex b).
  - destruct (IH (addItem (camera_label i) b)) as [-> ->]. cbn.
    rewrite <- app_assoc. now destruct (currentIndex b).
Qed.

(** X9: after [scan_and_update_cameras] the combo box lists a label per
    device that opened, in ascending order, then the two stream entries;
    the start button is enabled exactly when some device of 0..9 opened;
    and the source selected is the lowest device that opened, or the URL
    when none did. *)
Theorem scan_selects_the_lowest_camera :
  forall (int : string -> option Z) (isOpened : Z -> bool) (t : trace) (url : string),
    (forall z, int (str (Device z)) = Some z) ->
    let '(available_cameras, b, enabled, _) := scan_and_update_cameras isOpened t in
    available_cameras = filter isOpened [0; 1; 2; 3; 4; 5; 6; 7; 8; 9]%Z /\
    items b = map camera_label available_cameras ++ ["RTSP Stream"; "IP Camera"]%string /\
    enabled = existsb isOpened [0; 1; 2; 3; 4; 5; 6; 7; 8; 9]%Z /\
    get_camera_source int (currentText b) url =
      Some match available_cameras with
           | idx :: _ => Device idx
           | [] => Stream url
           end.
Proof.
  intros int isOpened t url Hint. unfold scan_and_update_cameras.
  pose proof (probe_fold_result isOpened (range 10) [] t) as [H1 _].
  fold (get_available_cameras isOpened t) in H1.
  destruct (get_available_cameras isOpened t) as [avail t'] eqn:E. cbn [fst app] in H1.
  change (range 10) with [0; 1; 2; 3; 4; 5; 6; 7; 8; 9]%Z in H1.
  assert (Hex : existsb isOpened [0; 1; 2; 3; 4; 5; 6; 7; 8; 9]%Z =
                match avail with [] => false | _ :: _ => true end).
  { rewrite H1. generalize [0; 1; 2; 3; 4; 5; 6; 7; 8; 9]%Z. intros l.
    induction l as [|x l IH]; [reflexivity|]. cbn. destruct (isOpened x); [reflexivity|].
    exact IH. }
  destruct (addItem_fold avail clear) as [Hi Hc]. cbn [items currentIndex clear app] in Hi, Hc.
  rewrite Hex. clear Hex.
  destruct avail as [|idx rest].
  - cbn. repeat split; assumption.
  - repeat split; try assumption.
    + cbn [setCurrentIndex addItem items]. rewrite Hi. now rewrite <- !app_assoc.
    + unfold currentText, setCurrentIndex. cbn [addItem items currentIndex].
      rewrite Hi. cbn. now apply label_reads_back.
Qed.

Lemma scan_selects_the_lowest_camera_witness :
  (forall z, decimal_int (str (Device z)) = Some z) /\
  let '(available_cameras, b, enabled, _) :=
    scan_and_update_cameras (fun i => (i =? 2)%Z || (i =? 5)%Z) [] in
  available_cameras =
    filter (fun i => (i =? 2)%Z || (i =? 5)%Z) [0; 1; 2; 3; 4; 5; 6; 7; 8; 9]%Z /\
  items b = map camera_label available_cameras ++ ["RTSP Stream"; "IP Camera"]%string /\
  enabled = existsb (fun i => (i =? 2)%Z || (i =? 5)%Z) [0; 1; 2; 3; 4; 5; 6; 7; 8; 9]%Z /\
  get_camera_source decimal_int (currentText b) "rtsp://cam" =
    Some match available_cameras with
         | idx :: _ => Device idx
         | [] => Stream "rtsp://cam"
         end.
Proof.
  split; [exact decimal_int_str|].
  exact (scan_selects_the_lowest_camera decimal_int (fun i => (i =? 2)%Z || (i =? 5)%Z)
           [] "rtsp://cam" decimal_int_str).
Defined.

Lemma search_vehicle_texts lower s l :
  map item_text (search_vehicle lower s l) = map item_text l.
Proof. unfold search_vehicle. now rewrite map_map. Qed.

(** X11: a search sets the visibility of every entry, so a second search
    leaves the list as if the first had not happened; a search keeps the
    texts and their order, and shows exactly the entries whose text
    contains the search text, both lowered. *)
Theorem search_vehicle_last_search_wins :
  forall (lower : string -> string) (s1 s2 : string) (plate_list : list list_item),
    search_vehicle lower s2 (search_vehicle lower s1 plate_list) =
      search_vehicle lower s2 plate_list /\
    map item_text (search_vehicle lower s1 plate_list) = map item_text plate_list /\
    map item_text (filter (fun item => negb (hidden item))
                          (search_vehicle lower s1 plate_list)) =
      filter (fun text => contains (lower s1) (lower text)) (map item_text plate_list).
Proof.
  intros lower s1 s2 l. unfold search_vehicle. repeat split.
  - rewrite map_map. reflexivity.
  - rewrite map_map. reflexivity.
  - induction l as [|x l IH]; [reflexivity|]. cbn.
    destruct (contains (lower s1) (lower (item_text x))); cbn; now rewrite IH.
Qed.

Lemma contains_empty hay : contains EmptyString hay = true.
Proof. destruct hay; reflexivity. Qed.

Lemma prefix_refl s : prefix s s = true.
Proof.
  induction s as [|c s IH]; [reflexivity|]. cbn.
  destruct (ascii_dec c c); [assumption|congruence].
Qed.

(** X12: a search with an empty box unhides every entry, given that
    lowering the empty string gives the empty string. *)
Theorem search_vehicle_empty_shows_all :
  forall (lower : string -> string) (plate_list : list list_item),
    lower EmptyString = EmptyString ->
    map hidden (search_vehicle lower EmptyString plate_list) = map (fun _ => false) plate_list.
Proof.
  intros lower l H. unfold search_vehicle. rewrite H, map_map. cbn.
  apply map_ext. intros x. now rewrite contains_empty.
Qed.

Lemma search_vehicle_empty_shows_all_witness :
  ascii_lower EmptyString = EmptyString /\
  map hidden (search_vehicle ascii_lower EmptyString
                [{| item_text := "KA01AB1234"; hidden := true |};
                 {| item_text := "XYZ-123"; hidden := false |}]) =
  map (fun _ => false)
      [{| item_text := "KA01AB1234"; hidden := true |};
       {| item_text := "XYZ-123"; hidden := false |}].
Proof.
  split; [reflexivity|].
  exact (search_vehicle_empty_shows_all ascii_lower _ eq_refl).
Defined.

Lemma monitored_spec l plate :
  monitored l plate =
  negb (plate =? EmptyString)%string && existsb (String.eqb plate) (map item_text l).
Proof.
  induction l as [|x l IH]; cbn; [now rewrite andb_false_r|].
  rewrite IH. rewrite (String.eqb_sym (item_text x) plate).
  destruct (plate =? EmptyString)%string; cbn; [reflexivity|].
  now destruct (plate =? item_text x)%string.
Qed.

(** X13: [add_detection_result] appends one row and keeps the rows above
    it; a result without a vehicle type gets "Unknown"; the status bar
    changes exactly when the plate is not empty and is the text of an entry
    of the vehicle list, and entries hidden by a search count as well. *)
Theorem add_detection_result_appends_and_alerts :
  forall (lower : string -> string) (search : string)
         (result : string -> option string) (results_table : list table_row)
         (plate_list : list list_item) (status : string),
    let plate := get result "plate" EmptyString in
    let '(table', status') :=
      add_detection_result result results_table plate_list status in
    length table' = S (length results_table) /\
    firstn (length results_table) table' = results_table /\
    map text_of (map cell1 (skipn (length results_table) table')) =
      [match result "vehicle_type"%string with Some v => v | None => "Unknown"%string end] /\
    status' =
      (if negb (plate =? EmptyString)%string && existsb (String.eqb plate) (map item_text plate_list)
       then ("Monitored vehicle detected: " ++ plate)%string
       else status) /\
    snd (add_detection_result result results_table
           (search_vehicle lower search plate_list) status) = status'.
Proof.
  intros lower search result T L st plate. unfold add_detection_result.
  rewrite !monitored_spec.
  rewrite search_vehicle_texts. fold plate.
  repeat split.
  - rewrite length_app. cbn. lia.
  - now rewrite firstn_app, Nat.sub_diag, firstn_all, app_nil_r.
  - rewrite skipn_app, Nat.sub_diag, skipn_all. reflexivity.
Qed.

(** X14: with a file chosen and no I/O error, exporting right after a
    detection writes the header, the earlier rows and, as the last line,
    the timestamp, the vehicle type and the plate of the detection: the
    column headed "Plate" carries the vehicle type, the one headed
    "Confidence" the plate, and the colour is not written.  One string is
    written per row plus the header; with no file chosen nothing is
    written and the status bar is left alone. *)
Theorem export_results_after_detection :
  forall (filename : string) (result : string -> option string)
         (results_table : list table_row) (plate_list : list list_item)
         (status status' : string),
    filename <> EmptyString ->
    let table' := fst (add_detection_result result results_table plate_list status) in
    export_results filename None table' status' =
      (Some ((("Timestamp,Plate,Confidence" ++ nl)%string :: map csv_line results_table)
             ++ [(get result "timestamp" EmptyString ++ "," ++
                  get result "vehicle_type" "Unknown" ++ "," ++
                  get result "plate" EmptyString ++ nl)%string]),
       ("Results exported to " ++ filename)%string) /\
    option_map (@length string) (fst (export_results filename None table' status')) =
      Some (2 + length results_table) /\
    export_results EmptyString None table' status' = (None, status').
Proof.
  intros filename result T L st st' Hf table'. unfold export_results.
  apply String.eqb_neq in Hf. rewrite Hf. cbn [String.eqb].
  unfold table', add_detection_result. cbn [fst].
  rewrite map_app. cbn [map csv_line cell0 cell1 cell2 text_of].
  repeat split. cbn [fst option_map length]. rewrite length_app, length_map. cbn.
  f_equal. lia.
Qed.

Lemma export_results_after_detection_witness :
  "out.csv"%string <> EmptyString /\
  let result := fun key : string =>
                  if (key =? "plate")%string then Some "ABC-123"%string
                  else if (key =? "color")%string then Some "Red"%string
                  else None in
  let table' := fst (add_detection_result result [] [] "Ready") in
  export_results "out.csv" None table' "Ready" =
    (Some ((("Timestamp,Plate,Confidence" ++ nl)%string :: map csv_line [])
           ++ [(get result "timestamp" EmptyString ++ "," ++
                get result "vehicle_type" "Unknown" ++ "," ++
                get result "plate" EmptyString ++ nl)%string]),
     ("Results exported to " ++ "out.csv")%string) /\
  option_map (@length string) (fst (export_results "out.csv" None table' "Ready")) =
    Some (2 + length (@nil table_row)) /\
  export_results EmptyString None table' "Ready" = (None, "Ready"%string).
Proof.
  split; [discriminate|].
  exact (export_results_after_detection "out.csv" _ [] [] "Ready" "Ready"
           ltac:(discriminate)).
Defined.

(** X15: when the capture does not open, [toggle_stream(True)] still ends
    with [is_streaming] set, the button reading "Stop Camera", the LED
    green and the status "Camera started", as it does when the capture
    opens, because [start_stream] returns [True] either way; the error slot
    that ran in between has left the button unchecked. *)
Theorem toggle_stream_reports_started_after_open_failure :
  forall (source : source_identifier) (w : window),
    stream_button_checked w = true ->
    let w' := toggle_stream_on NotOpened source w in
    is_streaming w' = true /\
    stream_button_text w' = "Stop Camera"%string /\
    led_indicator w' = led_green /\
    status_message w' = "Camera started"%string /\
    stream_button_checked w' = false /\
    camera_display w' = Label "No camera feed" /\
    is_streaming (toggle_stream_on Opened source w) = is_streaming w' /\
    status_message (toggle_stream_on Opened source w) = status_message w' /\
    fst (start_stream_seen NotOpened source w) = true.
Proof.
  intros source w H. unfold toggle_stream_on, start_stream_seen, show_camera_error,
    setChecked_False. cbn. rewrite H. cbn. repeat split.
Qed.

Lemma toggle_stream_reports_started_after_open_failure_witness :
  let w := {| is_streaming := false; stream_button_checked := true;
              stream_button_text := "Start Camera"; led_indicator := led_red;
              status_message := "Ready"; camera_display := Label "No camera feed" |} in
  stream_button_checked w = true /\
  let w' := toggle_stream_on NotOpened (Device 0) w in
  is_streaming w' = true /\
  stream_button_text w' = "Stop Camera"%string /\
  led_indicator w' = led_green /\
  status_message w' = "Camera started"%string /\
  stream_button_checked w' = false /\
  camera_display w' = Label "No camera feed" /\
  is_streaming (toggle_stream_on Opened (Device 0) w) = is_streaming w' /\
  status_message (toggle_stream_on Opened (Device 0) w) = status_message w' /\
  fst (start_stream_seen NotOpened (Device 0) w) = true.
Proof.
  intros w. split; [reflexivity|].
  exact (toggle_stream_reports_started_after_open_failure (Device 0) w eq_refl).
Defined.

(** X16: [show_camera_error] leaves the window stopped: not streaming,
    button unchecked and reading "Start Camera", LED red, no feed shown.
    If the button was checked the status bar ends on "Camera stopped", not
    on the error message, since unchecking it runs [toggle_stream(False)];
    run again on its own result it shows the message. *)
Theorem show_camera_error_resets_the_window :
  forall (error_msg : string) (w : window),
    let w' := show_camera_error error_msg w in
    is_streaming w' = false /\
    stream_button_checked w' = false /\
    stream_button_text w' = "Start Camera"%string /\
    led_indicator w' = led_red /\
    camera_display w' = Label "No camera feed" /\
    status_message w' =
      (if stream_button_checked w then "Camera stopped"%string else error_msg) /\
    show_camera_error error_msg w' =
      {| is_streaming := false; stream_button_checked := false;
         stream_button_text := "Start Camera"; led_indicator := led_red;
         status_message := error_msg; camera_display := Label "No camera feed" |}.
Proof.
  intros msg w. unfold show_camera_error, setChecked_False. cbn.
  destruct (stream_button_checked w); cbn; repeat split.
Qed.

Lemma camera_test_loop_ends answers l :
  camera_test_loop answers = Some l ->
  releases_in l = 0 /\ frames_shown l = frames_grabbed l.
Proof.
  revert l. induction answers as [|[[f|] key] rest IH]; intros l H; cbn in H.
  - discriminate.
  - destruct (Z.land key 255 =? 113)%Z.
    + injection H as <-. split; reflexivity.
    + destruct (camera_test_loop rest) as [l'|]; [|discriminate].
      injection H as <-. destruct (IH l' eq_refl) as [H1 H2].
      unfold releases_in, frames_shown, frames_grabbed in *. cbn. split; [assumption|].
      now f_equal.
  - injection H as <-. split; reflexivity.
Qed.

(** X17: whenever the test script ends after an open that succeeded, by
    the quit key or by a failed read, it has released the camera exactly
    once, as its last action but [destroyAllWindows], and has shown every
    frame it read; when the open fails it exits without a release. *)
Theorem test_script_releases_the_camera_once :
  forall (answers : list (option frame * Z)) (l : list script_event),
    test_opencv_camera true answers = Some l ->
    releases_in l = 1 /\
    skipn (length l - 2) l = [S_release; S_destroyAllWindows] /\
    frames_shown l = frames_grabbed l /\
    releases_in [S_VideoCapture false;
                 S_print "Failed to open camera (index 0). Try another index or check camera permissions.";
                 S_exit 1] = 0 /\
    test_opencv_camera false answers =
      Some [S_VideoCapture false;
            S_print "Failed to open camera (index 0). Try another index or check camera permissions.";
            S_exit 1].
Proof.
  intros answers l H. unfold test_opencv_camera in H. cbn [negb] in H.
  destruct (camera_test_loop answers) as [l'|] eqn:E; [|discriminate].
  injection H as <-. destruct (camera_test_loop_ends _ _ E) as [H1 H2].
  repeat split.
  - unfold releases_in in *. cbn. rewrite filter_app, length_app, H1. reflexivity.
  - change (S_VideoCapture true :: S_print "Press 'q' to quit." :: l' ++
            [S_release; S_destroyAllWindows])
      with ((S_VideoCapture true :: S_print "Press 'q' to quit." :: l') ++
            [S_release; S_destroyAllWindows]).
    rewrite length_app. cbn [length].
    replace (S (S (length l')) + 2 - 2) with (length (S_VideoCapture true ::
      S_print "Press 'q' to quit." :: l')) by (cbn; lia).
    now rewrite skipn_app, skipn_all, Nat.sub_diag.
  - unfold frames_shown, frames_grabbed in *. cbn. rewrite !flat_map_app, H2. reflexivity.
Qed.

Lemma test_script_releases_the_camera_once_witness :
  let f := {| shape_h := 1; shape_w := 1; shape_ch := BGR; data := [1; 2; 3]%N |} in
  let answers := [(Some f, (-1)%Z); (Some f, 113%Z)] in
  let l := [S_VideoCapture true; S_print "Press 'q' to quit.";
            S_read (Some f); S_imshow f; S_waitKey (-1);
            S_read (Some f); S_imshow f; S_waitKey 113;
            S_release; S_destroyAllWindows] in
  test_opencv_camera true answers = Some l /\
  releases_in l = 1 /\
  skipn (length l - 2) l = [S_release; S_destroyAllWindows] /\
  frames_shown l = frames_grabbed l /\
  releases_in [S_VideoCapture false;
               S_print "Failed to open camera (index 0). Try another index or check camera permissions.";
               S_exit 1] = 0 /\
  test_opencv_camera false answers =
    Some [S_VideoCapture false;
          S_print "Failed to open camera (index 0). Try another index or check camera permissions.";
          S_exit 1].
Proof.
  intros f answers l. split; [reflexivity|].
  exact (test_script_releases_the_camera_once answers l eq_refl).
Defined.

(** X18: a turn of the test script's loop ends it exactly when the key
    code is 113 modulo 256, whatever its higher bits; the -1 that
    [waitKey] returns when no key is pressed never ends it. *)
Theorem test_script_quits_on_the_low_byte :
  forall (f : frame) (key : Z) (rest : list (option frame * Z)),
    camera_test_loop ((Some f, key) :: rest) =
      (if (key mod 256 =? 113)%Z
       then Some [S_read (Some f); S_imshow f; S_waitKey key]
       else option_map (app [S_read (Some f); S_imshow f; S_waitKey key])
                       (camera_test_loop rest)) /\
    camera_test_loop ((Some f, (-1)%Z) :: rest) =
      option_map (app [S_read (Some f); S_imshow f; S_waitKey (-1)])
                 (camera_test_loop rest).
Proof.
  intros f key rest. split; [|reflexivity].
  cbn [camera_test_loop]. change 255%Z with (Z.ones 8).
  rewrite Z.land_ones by lia. reflexivity.
Qed.
